(** * bytespool: size-classed byte pools and the growable buffer built on them

    A shallow embedding of [bytes_pool.go] (package [bytespool]) and
    [buffer/buffer.go] (package [buffer]).

    - Go's [int] is a 64-bit two's-complement integer.  It is carried as a
      [Z]; the arithmetic of the code ([i *= 2] in the constructor,
      [bLen + n] in [Guarantee], the counters of [ReadFrom], the reference
      count) goes through [GoInt.wrap].
    - A slice is its header ([reflect.SliceHeader]: [Data], [Len], [Cap]) over
      a flat byte-addressed memory, so that two slices may share or overlap
      their backing arrays exactly as in Go.
    - A panic is an explicit [outcome], which carries the state the panic
      leaves behind.
    - [sync.Pool] is a list of stored pointers; which stored pointer a [Get]
      yields, if any, is chosen by the caller of the model ([pick]). *)

From Stdlib Require Import ZArith List Lia Bool Sorted.
Import ListNotations.
Local Open Scope Z_scope.

(** ** Machine integers *)

Module GoInt.

Definition min_int : Z := - 2 ^ 63.
Definition max_int : Z := 2 ^ 63 - 1.
Definition MaxInt32 : Z := 2 ^ 31 - 1.

Definition in_int (z : Z) : Prop := min_int <= z <= max_int.

(** Two's-complement reduction of a mathematical result to an [int]. *)
Definition wrap (z : Z) : Z := (z + 2 ^ 63) mod 2 ^ 64 - 2 ^ 63.

End GoInt.
Import GoInt.

(** ** Errors and panics *)

Inductive error : Type :=
| ErrTooLarge
| ErrTruncation
| ErrGrow
| ErrClose
| EOF                      (* io.EOF *)
| OtherError (code : Z).   (* any other error value of a source or sink *)

Inductive panic_value : Type :=
| PanicError (e : error)   (* panic(e) *)
| RuntimePanic.            (* index or slice bounds, makeslice: len out of range *)

(** A call returns ([Ret], the state being part of the result) or panics
    ([Panic v st], with the state [st] as it is when [v] is raised; [unit]
    for code that touches no state). *)
Inductive outcome (S A : Type) : Type :=
| Ret (a : A)
| Panic (v : panic_value) (st : S).
Arguments Ret {S A} a.
Arguments Panic {S A} v st.

(** Sequencing inside a caller whose state is [T]: [f] says what the
    caller's state is when the callee panics with its own state. *)
Definition bind {S T A B : Type} (f : S -> T) (m : outcome S A) (k : A -> outcome T B)
  : outcome T B :=
  match m with
  | Ret a => k a
  | Panic v st => Panic v (f st)
  end.

Notation "x <- m @@ f ;; k" := (bind f m (fun x => k))
  (at level 61, m at next level, f at next level, right associativity).
Notation "' p <- m @@ f ;; k" := (bind f m (fun x => let p := x in k))
  (at level 61, p pattern, m at next level, f at next level, right associativity).

(** ** Memory and slices *)

Definition byte : Type := Byte.byte.
Definition memory : Type := Z -> byte.

(** The allocator hands out addresses upwards from [brk]. *)
Record heap : Type := mkHeap { mem : memory; brk : Z }.

(** [reflect.SliceHeader]. *)
Record slice : Type := mkSlice { Data : Z; Len : Z; Cap : Z }.

Definition nil_slice : slice := mkSlice 0 0 0.

(** The bytes a slice shows: [s[0], ..., s[len(s)-1]]. *)
Definition bytes_of (m : memory) (s : slice) : list byte :=
  map (fun i => m (Data s + Z.of_nat i)) (seq 0 (Z.to_nat (Len s))).

(** [make([]byte, len, cap)]: zeroed fresh memory; panics on a negative
    length or a length above the capacity. *)
Definition make (h : heap) (len cap : Z) : outcome heap (slice * heap) :=
  if (len <? 0) || (cap <? len) then Panic RuntimePanic h
  else
    let a := brk h in
    Ret (mkSlice a len cap,
         mkHeap (fun x => if (a <=? x) && (x <? a + cap) then Byte.x00 else mem h x)
                (a + cap)).

(** [s[:n]]; panics unless [0 <= n <= cap(s)]. *)
Definition reslice (s : slice) (n : Z) : outcome unit slice :=
  if (n <? 0) || (Cap s <? n) then Panic RuntimePanic tt
  else Ret (mkSlice (Data s) n (Cap s)).

(** [s[n:]]; panics unless [0 <= n <= len(s)]. *)
Definition slice_from (s : slice) (n : Z) : outcome unit slice :=
  if (n <? 0) || (Len s <? n) then Panic RuntimePanic tt
  else Ret (mkSlice (Data s + n) (Len s - n) (Cap s - n)).

(** Moving [n] bytes from address [src] to address [dst], with the source
    read before anything is written (memmove). *)
Definition memmove (m : memory) (dst src n : Z) : memory :=
  fun x => if (dst <=? x) && (x <? dst + n) then m (src + (x - dst)) else m x.

(** The builtin [copy(dst, src)]: the count and the memory afterwards. *)
Definition copy (m : memory) (dst src : slice) : Z * memory :=
  let n := Z.min (Len dst) (Len src) in
  (n, memmove m (Data dst) (Data src) n).

(** ** The size-class pool ([bytes_pool.go]) *)

Module bytespool.

Definition minCapacity : Z := 2.

(** [sync.Pool] holding [unsafe.Pointer]s to array bases.  The [New] closure
    of [newBytesPool] is [Pool_New] below. *)
Record bytesPool : Type := mkBytesPool { capacity : Z; pool : list Z }.

Record CapacityPools : Type := mkCapacityPools {
  minSize : Z;
  maxSize : Z;
  maxIndex : Z;
  pools : list bytesPool
}.

Definition newBytesPool (size : Z) : bytesPool := mkBytesPool size [].

(** [for i := minSize; i < maxSize; i *= 2 { pools = append(pools, newBytesPool(i)) }] *)
Fixpoint NewCapacityPools_loop (fuel : nat) (i maxSize : Z) (pools : list bytesPool)
  : option (list bytesPool) :=
  match fuel with
  | O => None
  | S fuel' =>
      if i <? maxSize
      then NewCapacityPools_loop fuel' (wrap (i * 2)) maxSize (pools ++ [newBytesPool i])
      else Some pools
  end.

(** [None]: the loop has not ended within [fuel] iterations. *)
Definition NewCapacityPools (fuel : nat) (minSize maxSize : Z) : option CapacityPools :=
  let minSize := if minSize <? minCapacity then minCapacity else minSize in
  let maxSize := if maxSize <? minSize then minSize else maxSize in
  match NewCapacityPools_loop fuel minSize maxSize [] with
  | None => None
  | Some pools =>
      let pools := pools ++ [newBytesPool maxSize] in
      Some (mkCapacityPools minSize maxSize (Z.of_nat (length pools) - 1) pools)
  end.

(** [int(math.Ceil(math.Log2(float64(size) / float64(minSize))))], taken at
    its exact real value: the least [k >= 0] with [minSize * 2^k >= size].
    [getPool] reaches it only with [minSize < size < maxSize].  The
    [float64] evaluation of the code gives this value for every [size] up
    to [2^31 - 1], and for every [size] that is [minSize] times a power of
    two, where [math.Log2] is exact; from about [2^48.5] on, rounding can
    make the code's value one less ([size = 2^49 + 1] with [minSize = 2]:
    48 for 49).  What is proved of the blocks [New] returns is therefore
    stated for the requests of [PoolRange.exact_request]. *)
Definition ceil_log2_ratio (size minSize : Z) : Z :=
  Z.log2_up ((size + minSize - 1) / minSize).

(** [p.pools[i]]: the index, checked against the bounds. *)
Definition pools_at (p : CapacityPools) (i : Z) : outcome unit Z :=
  if (0 <=? i) && (i <? Z.of_nat (length (pools p))) then Ret i
  else Panic RuntimePanic tt.

(** [getPool]: a [*bytesPool] is the index of the class in [p.pools];
    [None] is the nil pointer. *)
Definition getPool (p : CapacityPools) (size : Z) : outcome unit (option Z) :=
  if size <=? minSize p then
    i <- pools_at p 0 @@ id ;; Ret (Some i)
  else if size =? maxSize p then
    i <- pools_at p (maxIndex p) @@ id ;; Ret (Some i)
  else if maxSize p <? size then Ret None
  else
    let idx := ceil_log2_ratio size (minSize p) in
    let idx := if idx <? 0 then 0 else idx in
    if maxIndex p <? idx then Ret None
    else i <- pools_at p idx @@ id ;; Ret (Some i).

Definition class_at (p : CapacityPools) (i : Z) : bytesPool :=
  nth (Z.to_nat i) (pools p) (newBytesPool 0).

Definition set_class (p : CapacityPools) (i : Z) (bp : bytesPool) : CapacityPools :=
  mkCapacityPools (minSize p) (maxSize p) (maxIndex p)
    (firstn (Z.to_nat i) (pools p) ++ bp :: skipn (S (Z.to_nat i)) (pools p)).

(** [sync.Pool.Get] on the stored pointers: [pick = Some k] takes the [k]-th
    stored pointer out; [None] (or a [k] out of range) is a miss. *)
Definition Pool_Get (store : list Z) (pick : option nat) : option Z * list Z :=
  match pick with
  | None => (None, store)
  | Some k =>
      match nth_error store k with
      | Some ptr => (Some ptr, firstn k store ++ skipn (S k) store)
      | None => (None, store)
      end
  end.

Definition Pool_Put (store : list Z) (ptr : Z) : list Z := ptr :: store.

(** The [New] closure of the class's [sync.Pool], run by [Get] on a miss:
    [buf := make([]byte, size, size); return &buf]. *)
Definition Pool_New (h : heap) (bp : bytesPool) : outcome heap (slice * heap) :=
  make h (capacity bp) (capacity bp).

(** [New]: on a miss, [Get] returns the closure's [*[]byte], the assertion to
    [unsafe.Pointer] fails, and the block is made afresh. *)
Definition New (h : heap) (p : CapacityPools) (size : Z) (pick : option nat)
  : outcome (heap * CapacityPools) (slice * heap * CapacityPools) :=
  obp <- getPool p size @@ (fun _ => (h, p)) ;;
  match obp with
  | None => '(buf, h') <- make h size size @@ (fun h' => (h', p)) ;; Ret (buf, h', p)
  | Some i =>
      let bp := class_at p i in
      match Pool_Get (pool bp) pick with
      | (Some ptr, store') =>
          Ret (mkSlice ptr size (capacity bp), h,
               set_class p i (mkBytesPool (capacity bp) store'))
      | (None, _) =>
          '(_, h1) <- Pool_New h bp @@ (fun h' => (h', p)) ;;
          '(buf, h2) <- make h1 size (capacity bp) @@ (fun h' => (h', p)) ;;
          Ret (buf, h2, p)
      end
  end.

(** [Make]: [p.New(capacity)[:0]]. *)
Definition Make (h : heap) (p : CapacityPools) (capacity : Z) (pick : option nat)
  : outcome (heap * CapacityPools) (slice * heap * CapacityPools) :=
  '(buf, h', p') <- New h p capacity pick @@ id ;;
  buf0 <- reslice buf 0 @@ (fun _ => (h', p')) ;;
  Ret (buf0, h', p').

(** [Release]. *)
Definition Release (p : CapacityPools) (buf : slice)
  : outcome CapacityPools (bool * CapacityPools) :=
  let n := Cap buf in
  if (n =? 0) || (maxSize p <? n) then Ret (false, p)
  else
    obp <- getPool p (Cap buf) @@ (fun _ => p) ;;
    match obp with
    | None => Ret (false, p)
    | Some i =>
        let bp := class_at p i in
        if negb (n =? capacity bp) then Ret (false, p)
        else
          b1 <- reslice buf 1 @@ (fun _ => p) ;;
          Ret (true, set_class p i (mkBytesPool (capacity bp) (Pool_Put (pool bp) (Data b1))))
    end.

End bytespool.

(** ** The growable buffer ([buffer/buffer.go]) *)

Module buffer.
Import bytespool.

Record Buffer : Type := mkBuffer {
  B : slice;
  c : Z        (* int64: the number of additional references *)
}.

(** What the buffer's methods act on besides the buffer itself: the memory
    and [defaultPools.bs], the byte pools of the package. *)
Record world : Type := mkWorld { hp : heap; bs : CapacityPools }.

(** [io.Reader]: a source with a state of its own.  [io_Read r m p] is the
    call [r.Read(p)] in memory [m]: the count, the error, the memory after
    the source has written, and the source afterwards. *)
Class io_Reader (R : Type) : Type :=
  io_Read : R -> memory -> slice -> Z * option error * memory * R.

(** The methods [Len] and [Cap] of the buffer. *)
Definition Buffer_Len (bb : Buffer) : Z := Len (B bb).
Definition Buffer_Cap (bb : Buffer) : Z := Cap (B bb).

Definition Bytes (bb : Buffer) : slice := B bb.

Section Runtime.

(** The capacity [runtime.growslice] picks for an old capacity and a needed
    length when [append] has to move the slice. *)
Variable growslice_cap : Z -> Z -> Z.

(** The builtin [append(dst, src...)]. *)
Definition append (h : heap) (dst src : slice) : outcome heap (slice * heap) :=
  let n := Len dst + Len src in
  if n <=? Cap dst then
    Ret (mkSlice (Data dst) n (Cap dst),
         mkHeap (memmove (mem h) (Data dst + Len dst) (Data src) (Len src)) (brk h))
  else
    '(fresh, h1) <- make h n (growslice_cap (Cap dst) n) @@ id ;;
    let m1 := memmove (mem h1) (Data fresh) (Data dst) (Len dst) in
    let m2 := memmove m1 (Data fresh + Len dst) (Data src) (Len src) in
    Ret (fresh, mkHeap m2 (brk h1)).

(** [Guarantee]. *)
Definition Guarantee (w : world) (pick : option nat) (bb : Buffer) (n : Z)
  : outcome (Buffer * world) (Buffer * world) :=
  if n <? 0 then Panic (PanicError ErrGrow) (bb, w)
  else
    let bLen := Buffer_Len bb in
    let bCap := Buffer_Cap bb in
    let bSize := wrap (bLen + n) in
    if bSize <=? bCap then Ret (bb, w)
    else if MaxInt32 <? bSize then Panic (PanicError ErrTooLarge) (bb, w)
    else
      '(buf, h1, p1) <- Make (hp w) (bs w) bSize pick
                        @@ (fun '(h', p') => (bb, mkWorld h' p')) ;;
      '(buf, h2) <- append h1 buf (B bb) @@ (fun h' => (bb, mkWorld h' p1)) ;;
      '(_, p2) <- Release p1 (B bb) @@ (fun p' => (bb, mkWorld h2 p')) ;;
      Ret (mkBuffer buf (c bb), mkWorld h2 p2).

(** [Grow]. *)
Definition Grow (w : world) (pick : option nat) (bb : Buffer) (n : Z)
  : outcome (Buffer * world) (Buffer * world) :=
  '(bb1, w1) <- Guarantee w pick bb n @@ id ;;
  b' <- reslice (B bb1) (wrap (Len (B bb1) + n)) @@ (fun _ => (bb1, w1)) ;;
  Ret (mkBuffer b' (c bb1), w1).

End Runtime.

(** [Truncate]. *)
Definition Truncate (bb : Buffer) (n : Z) : outcome Buffer Buffer :=
  if (n <? 0) || (Buffer_Len bb <? n) then Panic (PanicError ErrTruncation) bb
  else
    b' <- reslice (B bb) n @@ (fun _ => bb) ;;
    Ret (mkBuffer b' (c bb)).

(** [Reset]. *)
Definition Reset (bb : Buffer) : outcome Buffer Buffer :=
  b' <- reslice (B bb) 0 @@ (fun _ => bb) ;;
  Ret (mkBuffer b' (c bb)).

(** [Read]: the count, the error, and the memory after the copy; the buffer
    itself is not assigned to. *)
Definition Read (m : memory) (bb : Buffer) (p : slice) : Z * option error * memory :=
  let '(n, m') := copy m p (B bb) in
  (n, None, m').

Section ReadFrom.

Context {R : Type} {reader : io_Reader R}.

(** The buffer, the world and the source, as a call of [ReadFrom] leaves
    them. *)
Record read_state : Type := mkReadState {
  rs_bb : Buffer;
  rs_world : world;
  rs_src : R
}.

(** The local variables of [ReadFrom] that change from one iteration of
    its loop to the next; [lv_picks] holds the choice of [sync.Pool.Get]
    for each [New] still to come. *)
Record loop_vars : Type := mkLoopVars {
  lv_world : world;
  lv_bCap : Z;
  lv_n : Z;
  lv_p : slice;
  lv_src : R;
  lv_picks : list (option nat)
}.

(** The first half of the loop body: [if n == bCap { ... }].  [inr] is the
    [return] with [ErrTooLarge]. *)
Definition ReadFrom_grow (bb : Buffer) (v : loop_vars)
  : outcome read_state (loop_vars + (Z * option error * read_state)) :=
  let here := mkReadState bb (lv_world v) (lv_src v) in
  if lv_n v =? lv_bCap v then
    if lv_n v =? MaxInt32 then
      Ret (inr (lv_n v, Some ErrTooLarge, here))
    else
      let w := lv_world v in
      let bCap := wrap (lv_bCap v * 2) in
      let bCap := if MaxInt32 <? bCap then MaxInt32 else bCap in
      '(pNew, h1, p1) <- New (hp w) (bs w) bCap (hd None (lv_picks v))
                         @@ (fun '(h', p') => mkReadState bb (mkWorld h' p') (lv_src v)) ;;
      let '(_, m2) := copy (mem h1) pNew (lv_p v) in
      let h2 := mkHeap m2 (brk h1) in
      '(_, p2) <- Release p1 (lv_p v)
                  @@ (fun p' => mkReadState bb (mkWorld h2 p') (lv_src v)) ;;
      Ret (inl (mkLoopVars (mkWorld h2 p2) bCap (lv_n v) pNew (lv_src v)
                  (tl (lv_picks v))))
  else Ret (inl v).

(** The second half: the call of the source and what follows it.  [inr] is
    one of the two [return]s after an error of the source. *)
Definition ReadFrom_read (bb : Buffer) (bLen : Z) (v : loop_vars)
  : outcome read_state (loop_vars + (Z * option error * read_state)) :=
  let w := lv_world v in
  sub <- slice_from (lv_p v) (lv_n v) @@ (fun _ => mkReadState bb w (lv_src v)) ;;
  let '(nn, err, m', r') := io_Read (lv_src v) (mem (hp w)) sub in
  let w' := mkWorld (mkHeap m' (brk (hp w))) (bs w) in
  let n := wrap (lv_n v + nn) in
  match err with
  | Some e =>
      b' <- reslice (lv_p v) n @@ (fun _ => mkReadState bb w' r') ;;
      let n := wrap (n - bLen) in
      let after := mkReadState (mkBuffer b' (c bb)) w' r' in
      match e with
      | EOF => Ret (inr (n, None, after))
      | _ => Ret (inr (n, Some e, after))
      end
  | None =>
      Ret (inl (mkLoopVars w' (lv_bCap v) n (lv_p v) r' (lv_picks v)))
  end.

(** One iteration of the loop. *)
Definition ReadFrom_iter (bb : Buffer) (bLen : Z) (v : loop_vars)
  : outcome read_state (loop_vars + (Z * option error * read_state)) :=
  g <- ReadFrom_grow bb v @@ id ;;
  match g with
  | inl v' => ReadFrom_read bb bLen v'
  | inr res => Ret (inr res)
  end.

(** The loop, run [fuel] times at most.  [None]: it has not returned within
    [fuel] iterations. *)
Fixpoint ReadFrom_loop (fuel : nat) (bb : Buffer) (bLen : Z) (v : loop_vars)
  : option (outcome read_state (Z * option error * read_state)) :=
  match fuel with
  | O => None
  | S fuel' =>
      match ReadFrom_iter bb bLen v with
      | Panic e st => Some (Panic e st)
      | Ret (inr res) => Some (Ret res)
      | Ret (inl v') => ReadFrom_loop fuel' bb bLen v'
      end
  end.

(** [ReadFrom]. *)
Definition ReadFrom (fuel : nat) (picks : list (option nat))
    (w : world) (bb : Buffer) (r : R)
  : option (outcome read_state (Z * option error * read_state)) :=
  let bLen := Buffer_Len bb in
  let bCap := Buffer_Cap bb in
  let n := bLen in
  match reslice (B bb) bCap with
  | Panic e _ => Some (Panic e (mkReadState bb w r))
  | Ret p => ReadFrom_loop fuel bb bLen (mkLoopVars w bCap n p r picks)
  end.

End ReadFrom.

Arguments read_state : clear implicits.
Arguments loop_vars : clear implicits.

(** Reference counting; [atomic.AddInt64] wraps like [int64] addition. *)
Definition RefAdd (bb : Buffer) (delta : Z) : Buffer :=
  mkBuffer (B bb) (wrap (c bb + delta)).

Definition RefInc (bb : Buffer) : Buffer := RefAdd bb 1.
Definition RefDec (bb : Buffer) : Buffer := RefAdd bb (-1).
Definition RefStore (bb : Buffer) (val : Z) : Buffer := mkBuffer (B bb) val.
Definition RefValue (bb : Buffer) : Z := c bb.
Definition RefReset (bb : Buffer) : Buffer := mkBuffer (B bb) 0.

(** [RefSwapDec]: with no other goroutine between the load and the
    compare-and-swap, the first attempt succeeds. *)
Definition RefSwapDec (bb : Buffer) : Z * Buffer :=
  let c0 := c bb in
  (c0, mkBuffer (B bb) (wrap (c0 - 1))).

End buffer.

(** ** Configured pools *)

Module PoolSpec.
Import bytespool.

(** The capacities of the classes of a pool with bounds [lo <= hi], as the
    construction is described: [lo * 2^i] for [i = 0, ..., k-1] and then
    the terminal [hi]. *)
Definition class_capacities (lo hi : Z) (k : nat) : list Z :=
  map (fun i => lo * 2 ^ Z.of_nat i) (seq 0 k) ++ [hi].

(** The bounds after the two clamps of the constructor. *)
Definition clamped_min (minSize : Z) : Z := Z.max minSize minCapacity.
Definition clamped_max (minSize maxSize : Z) : Z := Z.max maxSize (clamped_min minSize).

(** A pool as some call of the constructor built it, whatever its classes
    store by now. *)
Definition same_classes (p q : CapacityPools) : Prop :=
  minSize p = minSize q /\ maxSize p = maxSize q /\ maxIndex p = maxIndex q /\
  map capacity (pools p) = map capacity (pools q).

Definition configured (p : CapacityPools) : Prop :=
  exists fuel a b q, NewCapacityPools fuel a b = Some q /\ same_classes p q.

(** A configured pool whose upper bound leaves doubling inside [int]. *)
Definition configured_upto (bound : Z) (p : CapacityPools) : Prop :=
  configured p /\ maxSize p <= bound.

(** The class of a request, as the selection rule is documented: the
    smallest class up to [minSize], the terminal class at [maxSize], and
    otherwise index [ceil(log2(size / minSize))] clamped into
    [0 .. maxIndex]. *)
Definition documented_class (p : CapacityPools) (size : Z) : Z :=
  if size <=? minSize p then 0
  else if size =? maxSize p then maxIndex p
  else Z.max 0 (Z.min (ceil_log2_ratio size (minSize p)) (maxIndex p)).

(** The values the loop variable of the constructor takes from [2] once the
    doubling has left [int]: the powers of two, [-2^63], then [0] for
    ever. *)
Definition doubling_orbit (i : Z) : Prop :=
  i = 0 \/ i = - 2 ^ 63 \/ exists j, 1 <= j <= 62 /\ i = 2 ^ j.

(** The pool of the first scenario: bounds 2 and 8. *)
Definition pool_2_8 : CapacityPools :=
  mkCapacityPools 2 8 2 [newBytesPool 2; newBytesPool 4; newBytesPool 8].

(** A memory of zeroes with nothing allocated. *)
Definition empty_heap : heap := mkHeap (fun _ => Byte.x00) 0.

(** A slice header as the language keeps it. *)
Definition slice_wf (s : slice) : Prop := 0 <= Len s <= Cap s.

End PoolSpec.

(** ** Buffers in a well-formed world *)

Module BufferSpec.
Import bytespool PoolSpec buffer.

(** The backing array of a slice lies in memory that was allocated. *)
Definition in_heap (h : heap) (s : slice) : Prop :=
  0 <= Data s /\ Data s + Cap s <= brk h.

(** The bytes of two slices do not overlap. *)
Definition disjoint (s t : slice) : Prop :=
  Data s + Len s <= Data t \/ Data t + Len t <= Data s.

(** The zero value of [Buffer]. *)
Definition zero_Buffer : Buffer := mkBuffer nil_slice 0.

(** A world over the pool of the first scenario. *)
Definition world_2_8 : world := mkWorld empty_heap pool_2_8.

(** A world with four bytes allocated, and a buffer over them holding two
    bytes. *)
Definition small_world : world := mkWorld (mkHeap (fun _ => Byte.x00) 4) pool_2_8.
Definition small_buffer : Buffer := mkBuffer (mkSlice 0 2 4) 0.

(** A choice of [runtime.growslice]: exactly the needed capacity. *)
Definition growslice_exact (oldCap needed : Z) : Z := needed.

(** Every pointer a class stores is the base of an allocated array of the
    class's capacity. *)
Definition pointers_in_heap (h : heap) (p : CapacityPools) : Prop :=
  forall i ptr,
    0 <= i < Z.of_nat (length (pools p)) ->
    In ptr (pool (class_at p i)) ->
    0 <= ptr /\ ptr + capacity (class_at p i) <= brk h.

Definition world_wf (w : world) : Prop :=
  configured_upto (2 ^ 62) (bs w) /\ 0 <= brk (hp w) /\
  pointers_in_heap (hp w) (bs w).

Section Sources.

Context {R : Type} {reader : io_Reader R}.

(** What [io.Reader] asks of [Read(p)]: a count within [0 .. len(p)], and no
    write outside [p]. *)
Definition io_contract : Prop :=
  forall r m sub nn err m' r',
    io_Read r m sub = (nn, err, m', r') -> 0 <= Len sub ->
    0 <= nn <= Len sub /\
    (forall a, a < Data sub \/ Data sub + Len sub <= a -> m' a = m a).

(** The bytes the source delivers in the iteration that calls it with the
    loop variables [v]. *)
Definition chunk_read (v : loop_vars R) : list byte :=
  match slice_from (lv_p v) (lv_n v) with
  | Ret sub =>
      let '(nn, _, m', _) := io_Read (lv_src v) (mem (hp (lv_world v))) sub in
      bytes_of m' (mkSlice (Data sub) nn nn)
  | Panic _ _ => []
  end.



(** The loop variables [ReadFrom] starts from. *)
Definition ReadFrom_start (picks : list (option nat)) (w : world) (bb : Buffer) (r : R)
  : loop_vars R :=
  mkLoopVars w (Buffer_Cap bb) (Buffer_Len bb)
    (mkSlice (Data (B bb)) (Buffer_Cap bb) (Cap (B bb))) r picks.

(** What holds of the loop variables at the start of every iteration, when
    [old] are the buffer's bytes at the call and [acc] the bytes delivered
    since. *)
Definition ReadFrom_inv (bLen : Z) (old acc : list byte) (v : loop_vars R) : Prop :=
  world_wf (lv_world v) /\
  in_heap (hp (lv_world v)) (lv_p v) /\
  Len (lv_p v) = lv_bCap v /\ lv_bCap v <= Cap (lv_p v) /\
  0 <= lv_n v <= lv_bCap v /\ lv_bCap v <= MaxInt32 /\
  lv_n v = bLen + Z.of_nat (length acc) /\
  bytes_of (mem (hp (lv_world v))) (mkSlice (Data (lv_p v)) (lv_n v) (Cap (lv_p v))) =
    old ++ acc.

End Sources.

(** A source that fills whatever it is given with the byte 1 and reports no
    error. *)
#[global] Instance fill_reader : io_Reader unit :=
  fun r m p =>
    (Len p, None,
     fun a => if (Data p <=? a) && (a <? Data p + Len p) then Byte.x01 else m a, r).

(** A source with [k] bytes 1 left, which reports [EOF] once they are
    delivered. *)
#[global] Instance ones_reader : io_Reader Z :=
  fun k m p =>
    if k <=? 0 then (0, Some EOF, m, k)
    else
      let nn := Z.min k (Len p) in
      (nn, None,
       fun a => if (Data p <=? a) && (a <? Data p + nn) then Byte.x01 else m a, k - nn).

End BufferSpec.

(** ** Requests whose class is free of rounding *)

Module PoolRange.
Import bytespool.

(** The requests whose class does not hang on [float64] rounding: those
    [getPool] settles before its [math.Log2] line (up to [minSize], or from
    [maxSize] on), and those up to [2^31 - 1], for which the [float64]
    value of the index is the exact one. *)
Definition exact_request (p : CapacityPools) (size : Z) : Prop :=
  size <= minSize p \/ maxSize p <= size \/ size <= MaxInt32.

End PoolRange.

(** ** The rest of the pool's methods ([bytes_pool.go]) *)

Module bytespool_api.
Import bytespool.

(** [int(x)] for a [uint64] [x]: the same 64 bits read as a signed number. *)
Definition int_of_uint64 (x : Z) : Z := wrap x.

(** [Make64]: [p.New(int(capacity))[:0]]. *)
Definition Make64 (h : heap) (p : CapacityPools) (capacity : Z) (pick : option nat)
  : outcome (heap * CapacityPools) (slice * heap * CapacityPools) :=
  '(buf, h', p') <- New h p (int_of_uint64 capacity) pick @@ id ;;
  buf0 <- reslice buf 0 @@ (fun _ => (h', p')) ;;
  Ret (buf0, h', p').

(** [MakeMax]: [p.New(p.maxSize)[:0]]. *)
Definition MakeMax (h : heap) (p : CapacityPools) (pick : option nat)
  : outcome (heap * CapacityPools) (slice * heap * CapacityPools) :=
  '(buf, h', p') <- New h p (maxSize p) pick @@ id ;;
  buf0 <- reslice buf 0 @@ (fun _ => (h', p')) ;;
  Ret (buf0, h', p').

(** [MakeMin]: [p.New(p.minSize)[:0]]. *)
Definition MakeMin (h : heap) (p : CapacityPools) (pick : option nat)
  : outcome (heap * CapacityPools) (slice * heap * CapacityPools) :=
  '(buf, h', p') <- New h p (minSize p) pick @@ id ;;
  buf0 <- reslice buf 0 @@ (fun _ => (h', p')) ;;
  Ret (buf0, h', p').

(** [New64], [NewMax], [NewMin]. *)
Definition New64 (h : heap) (p : CapacityPools) (size : Z) (pick : option nat)
  : outcome (heap * CapacityPools) (slice * heap * CapacityPools) :=
  New h p (int_of_uint64 size) pick.

Definition NewMax (h : heap) (p : CapacityPools) (pick : option nat)
  : outcome (heap * CapacityPools) (slice * heap * CapacityPools) :=
  New h p (maxSize p) pick.

Definition NewMin (h : heap) (p : CapacityPools) (pick : option nat)
  : outcome (heap * CapacityPools) (slice * heap * CapacityPools) :=
  New h p (minSize p) pick.

End bytespool_api.

(** ** The rest of the buffer's methods ([buffer/buffer.go]) *)

Module buffer_api.
Import bytespool buffer.

(** The literal [[]byte{}]: no bytes, no capacity. *)
Definition empty_literal : slice := mkSlice 0 0 0.

Section Runtime.

Variable growslice_cap : Z -> Z -> Z.

(** [Copy]: [append([]byte{}, bb.B...)]. *)
Definition Copy (h : heap) (bb : Buffer) : outcome heap (slice * heap) :=
  append growslice_cap h empty_literal (B bb).

End Runtime.

Section Sources.

Context {R : Type} {reader : io_Reader R}.

(** A source that reports no error when it is handed an empty slice, as
    one that still has data to deliver does. *)
Definition quiet_on_empty : Prop :=
  forall r m sub nn err m' r',
    io_Read r m sub = (nn, err, m', r') -> Len sub = 0 -> err = None.

End Sources.

End buffer_api.

(** * Proofs *)

(** ** The size-class pool *)
Import bytespool PoolSpec PoolRange.

Lemma wrap_id z : in_int z -> wrap z = z.
Proof.
  unfold in_int, min_int, max_int, wrap. intros H.
  rewrite Z.mod_small by lia. lia.
Qed.

Lemma ceil_div_lt m s t : 0 < m -> (t < (s + m - 1) / m <-> m * t < s).
Proof.
  intros Hm. split; intros H.
  - assert (m * ((s + m - 1) / m) <= s + m - 1) by (apply Z.mul_div_le; lia).
    nia.
  - apply Z.lt_le_pred in H. 
    assert (t + 1 <= (s + m - 1) / m); [|lia].
    apply Z.div_le_lower_bound; lia.
Qed.

Lemma ceil_log2_ratio_lt m s j :
  0 < m -> 0 <= j -> (m * 2 ^ j < s <-> j < ceil_log2_ratio s m).
Proof.
  intros Hm Hj. unfold ceil_log2_ratio.
  rewrite <- ceil_div_lt by assumption.
  destruct (Z_lt_le_dec 0 ((s + m - 1) / m)) as [Ha|Ha].
  - apply Z.log2_up_lt_pow2. assumption.
  - rewrite Z.log2_up_nonpos by assumption.
    assert (0 < 2 ^ j) by (apply Z.pow_pos_nonneg; lia). lia.
Qed.

Lemma ceil_log2_ratio_nonneg s m : 0 <= ceil_log2_ratio s m.
Proof. apply Z.log2_up_nonneg. Qed.

Lemma pow2_le_mono a b : 0 <= a <= b -> 2 ^ a <= 2 ^ b.
Proof. intros. apply Z.pow_le_mono_r; lia. Qed.

(** Running the constructor's loop from [lo * 2^j] when doubling never
    leaves [int]: it ends after [k - j] more classes. *)
Lemma NewCapacityPools_loop_run lo hi (k : nat) :
  0 < lo -> hi <= 2 ^ 62 ->
  (forall i : nat, lo * 2 ^ Z.of_nat i < hi <-> (i < k)%nat) ->
  forall (d j : nat) (fuel : nat) acc,
    (j + d = k)%nat -> (d < fuel)%nat ->
    NewCapacityPools_loop fuel (lo * 2 ^ Z.of_nat j) hi acc =
    Some (acc ++ map (fun i => newBytesPool (lo * 2 ^ Z.of_nat i)) (seq j d)).
Proof.
  intros Hlo Hhi Hk. induction d as [|d IH]; intros j fuel acc Hj Hf.
  - destruct fuel as [|fuel]; [lia|]. simpl.
    assert (~ lo * 2 ^ Z.of_nat j < hi) by (rewrite Hk; lia).
    destruct (Z.ltb_spec (lo * 2 ^ Z.of_nat j) hi); [contradiction|].
    now rewrite app_nil_r.
  - destruct fuel as [|fuel]; [lia|]. cbn [NewCapacityPools_loop].
    assert (Hlt : lo * 2 ^ Z.of_nat j < hi) by (rewrite Hk; lia).
    destruct (Z.ltb_spec (lo * 2 ^ Z.of_nat j) hi); [|lia].
    assert (Hpos : 0 < 2 ^ Z.of_nat j) by (apply Z.pow_pos_nonneg; lia).
    rewrite wrap_id by (unfold in_int, min_int, max_int; nia).
    replace (lo * 2 ^ Z.of_nat j * 2) with (lo * 2 ^ Z.of_nat (S j))
      by (rewrite Nat2Z.inj_succ, Z.pow_succ_r by lia; ring).
    rewrite (IH (S j) fuel) by lia.
    rewrite <- app_assoc. reflexivity.
Qed.

Lemma clamp_min_eq a : (if a <? minCapacity then minCapacity else a) = clamped_min a.
Proof. unfold clamped_min, minCapacity. destruct (Z.ltb_spec a 2); lia. Qed.

Lemma clamp_max_eq a b :
  (if b <? clamped_min a then clamped_min a else b) = clamped_max a b.
Proof. unfold clamped_max. destruct (Z.ltb_spec b (clamped_min a)); lia. Qed.

Lemma clamped_bounds a b : 2 <= clamped_min a <= clamped_max a b.
Proof. unfold clamped_max, clamped_min, minCapacity. lia. Qed.

Lemma StronglySorted_snoc_lt (l : list Z) (x : Z) :
  StronglySorted Z.lt l -> Forall (fun y => y < x) l -> StronglySorted Z.lt (l ++ [x]).
Proof.
  induction 1 as [|a l Hl IH Ha]; intros Hx; simpl.
  - repeat constructor.
  - inversion Hx; subst. constructor; [now apply IH|].
    apply Forall_app; split; [assumption|]. repeat constructor; assumption.
Qed.

Lemma doubling_sorted lo (d j : nat) :
  0 < lo -> StronglySorted Z.lt (map (fun i => lo * 2 ^ Z.of_nat i) (seq j d)).
Proof.
  intros Hlo. revert j. induction d as [|d IH]; intros j; simpl; constructor.
  - apply IH.
  - apply Forall_forall. intros y Hy. apply in_map_iff in Hy as [i [<- Hi]].
    apply in_seq in Hi.
    assert (2 ^ Z.of_nat j < 2 ^ Z.of_nat i) by (apply Z.pow_lt_mono_r; lia).
    nia.
Qed.

Lemma class_capacities_sorted lo hi k :
  0 < lo -> (forall i : nat, lo * 2 ^ Z.of_nat i < hi <-> (i < k)%nat) ->
  StronglySorted Z.lt (class_capacities lo hi k).
Proof.
  intros Hlo Hk. apply StronglySorted_snoc_lt.
  - now apply doubling_sorted.
  - apply Forall_forall. intros y Hy. apply in_map_iff in Hy as [i [<- Hi]].
    apply in_seq in Hi. apply Hk. lia.
Qed.

Lemma class_count_spec lo hi :
  0 < lo ->
  forall i : nat, lo * 2 ^ Z.of_nat i < hi <-> (i < Z.to_nat (ceil_log2_ratio hi lo))%nat.
Proof.
  intros Hlo i. rewrite ceil_log2_ratio_lt by lia.
  pose proof (ceil_log2_ratio_nonneg hi lo). lia.
Qed.

Lemma NewCapacityPools_unfold fuel a b :
  NewCapacityPools fuel a b =
  match NewCapacityPools_loop fuel (clamped_min a) (clamped_max a b) [] with
  | None => None
  | Some pools =>
      Some (mkCapacityPools (clamped_min a) (clamped_max a b)
              (Z.of_nat (length (pools ++ [newBytesPool (clamped_max a b)])) - 1)
              (pools ++ [newBytesPool (clamped_max a b)]))
  end.
Proof.
  unfold NewCapacityPools. rewrite clamp_min_eq, clamp_max_eq. reflexivity.
Qed.

Lemma NewCapacityPools_in_range (fuel : nat) (minSize maxSize : Z) :
  (64 <= fuel)%nat ->
  clamped_max minSize maxSize <= 2 ^ 62 ->
  let lo := clamped_min minSize in
  let hi := clamped_max minSize maxSize in
  2 <= lo <= hi /\
  exists (k : nat) (p : CapacityPools),
    (forall i : nat, lo * 2 ^ Z.of_nat i < hi <-> (i < k)%nat) /\
    NewCapacityPools fuel minSize maxSize = Some p /\
    bytespool.minSize p = lo /\ bytespool.maxSize p = hi /\
    maxIndex p = Z.of_nat k /\
    map capacity (pools p) = class_capacities lo hi k /\
    Forall (fun bp => pool bp = []) (pools p) /\
    StronglySorted Z.lt (map capacity (pools p)) /\
    last (map capacity (pools p)) 0 = hi.
Proof.
  intros Hfuel Hhi lo hi.
  pose proof (clamped_bounds minSize maxSize) as Hb. fold lo hi in Hb.
  split; [exact Hb|].
  set (k := Z.to_nat (ceil_log2_ratio hi lo)).
  assert (Hk : forall i : nat, lo * 2 ^ Z.of_nat i < hi <-> (i < k)%nat)
    by (apply class_count_spec; lia).
  assert (Hk61 : (k <= 61)%nat).
  { destruct (Nat.le_gt_cases k 61) as [|Hgt]; [assumption|].
    apply Hk in Hgt. change (Z.of_nat 61) with 61 in Hgt. lia. }
  rewrite NewCapacityPools_unfold. fold lo hi.
  pose proof (NewCapacityPools_loop_run lo hi k ltac:(lia) Hhi Hk k 0%nat fuel []
                ltac:(lia) ltac:(lia)) as Hrun.
  change (Z.of_nat 0) with 0 in Hrun. rewrite Z.pow_0_r, Z.mul_1_r in Hrun.
  rewrite Hrun.
  exists k. eexists. split; [exact Hk|]. split; [reflexivity|].
  cbn [bytespool.minSize bytespool.maxSize maxIndex pools].
  assert (Hcaps : map capacity
              (([] ++ map (fun i => newBytesPool (lo * 2 ^ Z.of_nat i)) (seq 0 k)) ++
               [newBytesPool hi]) = class_capacities lo hi k).
    { unfold class_capacities. rewrite app_nil_l, map_app, map_map. reflexivity. }
    rewrite Hcaps. repeat split.
    + rewrite app_nil_l, length_app, length_map, length_seq. simpl. lia.
    + rewrite app_nil_l. apply Forall_app. split.
      * apply Forall_forall. intros bp Hbp. apply in_map_iff in Hbp as [i [<- _]]. reflexivity.
      * repeat constructor.
    + apply class_capacities_sorted; [lia|exact Hk].
    + unfold class_capacities. apply last_last.
Qed.

Example NewCapacityPools_2_8 :
  exists p, NewCapacityPools 64 2 8 = Some p /\
            bytespool.minSize p = 2 /\ bytespool.maxSize p = 8 /\ maxIndex p = 2 /\
            map capacity (pools p) = [2; 4; 8].
Proof. eexists. split; [vm_compute; reflexivity|]. repeat split. Qed.

Lemma doubling_orbit_step i :
  doubling_orbit i -> i < 2 ^ 62 + 1 /\ doubling_orbit (wrap (i * 2)).
Proof.
  intros [->|[->|[j [Hj ->]]]].
  - split; [lia|]. left. reflexivity.
  - split; [lia|]. left. reflexivity.
  - assert (2 ^ j <= 2 ^ 62) by (apply pow2_le_mono; lia).
    split; [lia|].
    destruct (Z.eq_dec j 62) as [->|Hne].
    + right. left. reflexivity.
    + right. right. exists (j + 1). split; [lia|].
      assert (2 ^ (j + 1) <= 2 ^ 62) by (apply pow2_le_mono; lia).
      assert (0 < 2 ^ (j + 1)) by (apply Z.pow_pos_nonneg; lia).
      replace (2 ^ j * 2) with (2 ^ (j + 1)) by (rewrite Z.pow_add_r by lia; ring).
      apply wrap_id. unfold in_int, min_int, max_int. lia.
Qed.

Lemma NewCapacityPools_loop_orbit fuel :
  forall i acc, doubling_orbit i -> NewCapacityPools_loop fuel i (2 ^ 62 + 1) acc = None.
Proof.
  induction fuel as [|fuel IH]; intros i acc Hi; [reflexivity|].
  cbn [NewCapacityPools_loop].
  destruct (doubling_orbit_step i Hi) as [Hlt Hnext].
  destruct (Z.ltb_spec i (2 ^ 62 + 1)); [|lia].
  now apply IH.
Qed.

(** C3 fails as stated: the constructor does not return for these bounds. *)
Lemma NewCapacityPools_overflow :
  ~ exists fuel p, NewCapacityPools fuel 2 (2 ^ 62 + 1) = Some p.
Proof.
  intros [fuel [p H]]. rewrite NewCapacityPools_unfold in H.
  change (clamped_min 2) with 2 in H.
  change (clamped_max 2 (2 ^ 62 + 1)) with (2 ^ 62 + 1) in H.
  rewrite NewCapacityPools_loop_orbit in H; [discriminate|].
  right. right. exists 1. split; [lia|reflexivity].
Qed.

(** C3 (amended): the constructor clamps [minSize] up to 2 and [maxSize] up
    to [minSize]; when the clamped [maxSize] is within [2^62] (so that no
    doubling leaves [int]) it returns, with exactly one class of capacity
    [minSize * 2^i] for every [i] with [minSize * 2^i < maxSize], in
    ascending order, then one terminal class of capacity [maxSize]; the
    classes are sorted ascending and the last one is [maxSize].  With
    bounds 2 and 8 the classes are 2, 4, 8. *)
Theorem NewCapacityPools_classes :
  (forall (fuel : nat) (minSize maxSize : Z),
     (64 <= fuel)%nat ->
     clamped_max minSize maxSize <= 2 ^ 62 ->
     let lo := clamped_min minSize in
     let hi := clamped_max minSize maxSize in
     2 <= lo <= hi /\
     exists (k : nat) (p : CapacityPools),
       (forall i : nat, lo * 2 ^ Z.of_nat i < hi <-> (i < k)%nat) /\
       NewCapacityPools fuel minSize maxSize = Some p /\
       bytespool.minSize p = lo /\ bytespool.maxSize p = hi /\
       maxIndex p = Z.of_nat k /\
       map capacity (pools p) = class_capacities lo hi k /\
       Forall (fun bp => pool bp = []) (pools p) /\
       StronglySorted Z.lt (map capacity (pools p)) /\
       last (map capacity (pools p)) 0 = hi) /\
  (exists p, NewCapacityPools 64 2 8 = Some p /\ map capacity (pools p) = [2; 4; 8]).
Proof.
  split.
  - exact NewCapacityPools_in_range.
  - destruct NewCapacityPools_2_8 as [p [H1 [_ [_ [_ H2]]]]]. exists p. now split.
Qed.

Lemma NewCapacityPools_classes_witness :
  exists p, NewCapacityPools 64 3 100 = Some p /\
            StronglySorted Z.lt (map capacity (pools p)) /\
            last (map capacity (pools p)) 0 = 100.
Proof.
  destruct NewCapacityPools_classes as [H _].
  destruct (H 64%nat 3 100) as [_ [k [p [_ [Hp [_ [_ [_ [_ [_ [Hs Hl]]]]]]]]]]].
  - apply Nat.le_refl.
  - vm_compute. discriminate.
  - exists p. split; [exact Hp|]. split; [exact Hs|exact Hl].
Defined.

(** *** Pools that were configured *)

Lemma NewCapacityPools_loop_mono fuel :
  forall i hi acc r,
    NewCapacityPools_loop fuel i hi acc = Some r ->
    forall fuel', (fuel <= fuel')%nat -> NewCapacityPools_loop fuel' i hi acc = Some r.
Proof.
  induction fuel as [|fuel IH]; intros i hi acc r H fuel' Hle; [discriminate|].
  destruct fuel' as [|fuel']; [lia|]. cbn [NewCapacityPools_loop] in *.
  destruct (i <? hi); [|assumption].
  apply IH with (fuel' := fuel') in H; [assumption|lia].
Qed.

Lemma NewCapacityPools_loop_extends fuel :
  forall i hi acc r,
    NewCapacityPools_loop fuel i hi acc = Some r ->
    (exists l, r = acc ++ l) /\ (i < hi -> exists l, r = acc ++ newBytesPool i :: l).
Proof.
  induction fuel as [|fuel IH]; intros i hi acc r H; [discriminate|].
  cbn [NewCapacityPools_loop] in H. destruct (Z.ltb_spec i hi).
  - apply IH in H as [[l ->] _]. rewrite <- app_assoc. simpl.
    split; [eexists; reflexivity|]. intros _. eexists; reflexivity.
  - injection H as <-. split; [exists []; now rewrite app_nil_r|lia].
Qed.

Lemma map_capacity_length (p q : CapacityPools) :
  map capacity (pools p) = map capacity (pools q) ->
  length (pools p) = length (pools q).
Proof. intros H. apply (f_equal (@length Z)) in H. now rewrite !length_map in H. Qed.

Lemma class_at_capacity p i :
  capacity (class_at p i) = nth (Z.to_nat i) (map capacity (pools p)) 0.
Proof.
  unfold class_at. change 0 with (capacity (newBytesPool 0)) at 2.
  now rewrite map_nth.
Qed.

(** What every configured pool has, whatever the bounds were. *)
Lemma configured_shape p :
  configured p ->
  2 <= minSize p <= maxSize p /\
  maxIndex p = Z.of_nat (length (pools p)) - 1 /\
  (1 <= length (pools p))%nat /\
  capacity (class_at p 0) = minSize p /\
  capacity (class_at p (maxIndex p)) = maxSize p.
Proof.
  intros [fuel [a [b [q [Hq [Hmin [Hmax [Hidx Hcaps]]]]]]]].
  rewrite NewCapacityPools_unfold in Hq.
  destruct (NewCapacityPools_loop fuel (clamped_min a) (clamped_max a b) []) as [l|] eqn:Hl;
    [|discriminate].
  injection Hq as <-. cbn [minSize maxSize maxIndex pools] in *.
  pose proof (clamped_bounds a b) as Hb.
  assert (Hlen : length (pools p) = (length l + 1)%nat).
  { apply (f_equal (@length Z)) in Hcaps.
    now rewrite !length_map, length_app in Hcaps. }
  rewrite Hmin, Hmax, Hidx, !class_at_capacity, Hcaps, Hlen.
  rewrite length_app. simpl length.
  split; [lia|]. split; [lia|]. split; [lia|]. split.
  - destruct (Z_lt_le_dec (clamped_min a) (clamped_max a b)) as [Hlt|Hge].
    + apply NewCapacityPools_loop_extends in Hl as [_ Hl].
      destruct (Hl Hlt) as [l' ->]. reflexivity.
    + assert (clamped_min a = clamped_max a b) as Heq by lia.
      destruct fuel as [|fuel]; [discriminate|]. cbn [NewCapacityPools_loop] in Hl.
      rewrite Heq, Z.ltb_irrefl in Hl. injection Hl as <-. simpl. lia.
  - rewrite map_app. simpl.
    replace (Z.to_nat (Z.of_nat (length l + 1) - 1)) with (length (map capacity l))
      by (rewrite length_map; lia).
    now rewrite nth_middle.
Qed.

Lemma pools_at_ok p i :
  0 <= i < Z.of_nat (length (pools p)) -> pools_at p i = Ret i.
Proof.
  intros H. unfold pools_at.
  destruct (Z.leb_spec 0 i); [|lia].
  destruct (Z.ltb_spec i (Z.of_nat (length (pools p)))); [reflexivity|lia].
Qed.

(** [getPool] on a configured pool never indexes out of bounds, and agrees
    with the documented rule whenever it selects a class. *)
Lemma getPool_documented p size :
  configured p -> size <= maxSize p ->
  0 <= documented_class p size <= maxIndex p /\
  (getPool p size = Ret (Some (documented_class p size)) \/
   getPool p size = Ret None /\ minSize p < size < maxSize p /\
   documented_class p size = maxIndex p).
Proof.
  intros Hc Hsz. destruct (configured_shape p Hc) as [Hb [Hidx [Hlen _]]].
  unfold getPool, documented_class.
  destruct (Z.leb_spec size (minSize p)).
  - rewrite pools_at_ok by lia. simpl. split; [lia|]. now left.
  - destruct (Z.eqb_spec size (maxSize p)).
    + rewrite pools_at_ok by lia. simpl. split; [lia|]. now left.
    + destruct (Z.ltb_spec (maxSize p) size); [lia|].
      pose proof (ceil_log2_ratio_nonneg size (minSize p)) as Hnn.
      destruct (Z.ltb_spec (ceil_log2_ratio size (minSize p)) 0); [lia|].
      destruct (Z.ltb_spec (maxIndex p) (ceil_log2_ratio size (minSize p))).
      * split; [lia|]. right. repeat split; lia.
      * rewrite pools_at_ok by lia. simpl. split; [lia|]. left.
        f_equal. f_equal. lia.
Qed.

Lemma getPool_above_max p size :
  configured p -> maxSize p < size -> getPool p size = Ret None.
Proof.
  intros Hc Hsz. destruct (configured_shape p Hc) as [Hb _].
  unfold getPool.
  destruct (Z.leb_spec size (minSize p)); [lia|].
  destruct (Z.eqb_spec size (maxSize p)); [lia|].
  destruct (Z.ltb_spec (maxSize p) size); [reflexivity|lia].
Qed.

Lemma class_at_set_class p i bp :
  0 <= i < Z.of_nat (length (pools p)) -> class_at (set_class p i bp) i = bp.
Proof.
  intros Hi. unfold class_at, set_class. cbn [pools].
  assert (Hl : length (firstn (Z.to_nat i) (pools p)) = Z.to_nat i)
    by (rewrite length_firstn; lia).
  rewrite <- Hl at 1. apply nth_middle.
Qed.

Lemma class_at_set_class_other p i j bp :
  0 <= i < Z.of_nat (length (pools p)) -> 0 <= j -> j <> i ->
  class_at (set_class p i bp) j = class_at p j.
Proof.
  intros Hi Hj Hne. unfold class_at, set_class. cbn [pools].
  rewrite <- (firstn_skipn (Z.to_nat i) (pools p)) at 3.
  assert (Hl : length (firstn (Z.to_nat i) (pools p)) = Z.to_nat i)
    by (rewrite length_firstn; lia).
  destruct (Z_lt_le_dec j i) as [Hlt|Hge].
  - assert (Z.to_nat j < length (firstn (Z.to_nat i) (pools p)))%nat by lia.
    rewrite !app_nth1 by assumption. reflexivity.
  - assert (length (firstn (Z.to_nat i) (pools p)) <= Z.to_nat j)%nat by lia.
    rewrite !app_nth2 by assumption. rewrite Hl.
    replace (Z.to_nat j - Z.to_nat i)%nat with (S (Z.to_nat j - Z.to_nat i - 1)) by lia.
    cbn [nth]. rewrite <- (Nat.add_1_l (Z.to_nat i)), <- skipn_skipn.
    destruct (skipn (Z.to_nat i) (pools p)) as [|x tl0] eqn:E.
    + apply (f_equal (@length _)) in E. rewrite length_skipn in E. simpl in E. lia.
    + simpl. reflexivity.
Qed.

Lemma set_class_same_classes p i bp :
  0 <= i < Z.of_nat (length (pools p)) ->
  capacity bp = capacity (class_at p i) ->
  same_classes (set_class p i bp) p.
Proof.
  intros Hi Hcap. unfold same_classes, set_class. cbn [minSize maxSize maxIndex pools].
  repeat split.
  rewrite <- (firstn_skipn (Z.to_nat i) (pools p)) at 3.
  rewrite !map_app. f_equal.
  unfold class_at in Hcap.
  rewrite <- (Nat.add_1_l (Z.to_nat i)), <- skipn_skipn.
  destruct (skipn (Z.to_nat i) (pools p)) as [|x tl0] eqn:E.
  - apply (f_equal (@length _)) in E. rewrite length_skipn in E. simpl in E. lia.
  - simpl. f_equal. rewrite Hcap.
    rewrite <- (firstn_skipn (Z.to_nat i) (pools p)), E.
    rewrite app_nth2 by (rewrite length_firstn; lia).
    rewrite length_firstn.
    replace (Z.to_nat i - Nat.min (Z.to_nat i) (length (pools p)))%nat with 0%nat by lia.
    reflexivity.
Qed.

Lemma configured_same_classes p q :
  configured q -> same_classes p q -> configured p.
Proof.
  intros [fuel [a [b [q0 [H0 [H1 [H2 [H3 H4]]]]]]]] [G1 [G2 [G3 G4]]].
  exists fuel, a, b, q0. split; [assumption|].
  repeat split; congruence.
Qed.

Lemma NewCapacityPools_pool_2_8 : NewCapacityPools 64 2 8 = Some pool_2_8.
Proof. vm_compute. reflexivity. Qed.

Lemma same_classes_refl p : same_classes p p.
Proof. repeat split. Qed.

Lemma pool_2_8_configured : configured pool_2_8.
Proof.
  exists 64%nat, 2, 8, pool_2_8.
  split; [exact NewCapacityPools_pool_2_8|apply same_classes_refl].
Qed.

Lemma pool_2_8_configured_upto : configured_upto (2 ^ 62) pool_2_8.
Proof. split; [exact pool_2_8_configured|vm_compute; discriminate]. Qed.

Lemma Release_spec (p : CapacityPools) (b : slice) :
  configured p -> slice_wf b ->
  exists (ok : bool) (p' : CapacityPools),
    Release p b = Ret (ok, p') /\
    (ok = true <->
       Cap b <> 0 /\ Cap b <= maxSize p /\
       capacity (class_at p (documented_class p (Cap b))) = Cap b) /\
    (ok = true ->
       let i := documented_class p (Cap b) in
       getPool p (Cap b) = Ret (Some i) /\
       pool (class_at p' i) = Data b :: pool (class_at p i) /\
       capacity (class_at p' i) = capacity (class_at p i) /\
       (forall j, 0 <= j -> j <> i -> class_at p' j = class_at p j) /\
       same_classes p' p) /\
    (ok = false -> p' = p).
Proof.
  intros Hc [Hlen Hcap]. destruct (configured_shape p Hc) as [Hb [Hidx [Hl [_ Hterm]]]].
  unfold Release.
  destruct (Z.eqb_spec (Cap b) 0) as [H0|H0]; cbn [orb].
  { exists false, p. split; [reflexivity|]. split; [|split]; [|discriminate|reflexivity].
    split; [discriminate|]. intros [? _]. contradiction. }
  destruct (Z.ltb_spec (maxSize p) (Cap b)) as [Hgt|Hle].
  { exists false, p. split; [reflexivity|]. split; [|split]; [|discriminate|reflexivity].
    split; [discriminate|]. intros [_ [? _]]. lia. }
  destruct (getPool_documented p (Cap b) Hc Hle) as [Hrange [Hg|[Hg [Hbetween Hd]]]];
    rewrite Hg; cbn [bind].
  - set (i := documented_class p (Cap b)) in *.
    destruct (Z.eqb_spec (Cap b) (capacity (class_at p i))) as [He|He]; cbn [negb].
    + unfold reslice.
      destruct (Z.ltb_spec 1 0); [lia|].
      destruct (Z.ltb_spec (Cap b) 1); [lia|]. cbn [orb bind Data].
      eexists true, _. split; [reflexivity|].
      assert (Hi : 0 <= i < Z.of_nat (length (pools p))) by lia.
      split; [|split]; [| |discriminate].
      * split; [intros _; repeat split; auto|reflexivity].
      * intros _. split; [reflexivity|].
        rewrite class_at_set_class by exact Hi. cbn [pool capacity].
        split; [reflexivity|]. split; [reflexivity|]. split.
        -- intros j Hj Hne. now apply class_at_set_class_other.
        -- now apply set_class_same_classes.
    + exists false, p. split; [reflexivity|]. split; [|split]; [|discriminate|reflexivity].
      split; [discriminate|]. intros [_ [_ ?]]. congruence.
  - exists false, p. split; [reflexivity|]. split; [|split]; [|discriminate|reflexivity].
    split; [discriminate|]. intros [_ [_ Heq]]. rewrite Hd, Hterm in Heq. lia.
Qed.

(** C2: on a configured pool, [Release] of a block returns [true] exactly
    when the block's capacity is nonzero, is at most [maxSize], and equals
    the capacity of the class selected for that capacity; then the block's
    pointer is stored into that class and nothing else changes; when it
    returns [false] the pool is unchanged. *)
Theorem Release_accepts_iff (p : CapacityPools) (b : slice) :
  configured p -> slice_wf b ->
  exists (ok : bool) (p' : CapacityPools),
    Release p b = Ret (ok, p') /\
    (ok = true <->
       Cap b <> 0 /\ Cap b <= maxSize p /\
       capacity (class_at p (documented_class p (Cap b))) = Cap b) /\
    (ok = true ->
       let i := documented_class p (Cap b) in
       getPool p (Cap b) = Ret (Some i) /\
       pool (class_at p' i) = Data b :: pool (class_at p i) /\
       capacity (class_at p' i) = capacity (class_at p i) /\
       (forall j, 0 <= j -> j <> i -> class_at p' j = class_at p j) /\
       same_classes p' p) /\
    (ok = false -> p' = p).
Proof. exact (Release_spec p b). Qed.


Lemma Release_accepts_iff_witness :
  exists p', Release pool_2_8 (mkSlice 100 0 4) = Ret (true, p') /\
             pool (class_at p' 1) = [100].
Proof.
  assert (Hw : slice_wf (mkSlice 100 0 4)) by (unfold slice_wf; simpl; lia).
  destruct (Release_accepts_iff pool_2_8 (mkSlice 100 0 4) pool_2_8_configured Hw)
    as [ok [p' [HR [Hiff [Htrue _]]]]].
  assert (Hok : ok = true).
  { apply Hiff. vm_compute. repeat split; discriminate. }
  subst ok. destruct (Htrue eq_refl) as [_ [Hpool _]].
  exists p'. split; [exact HR|exact Hpool].
Defined.

(** C6: a request above [maxSize] selects no class; [New] allocates a fresh
    zeroed block with length and capacity equal to the request and leaves
    the pool as it was; releasing any block of that capacity returns
    [false] and leaves the pool as it was. *)
Theorem New_above_max_bypasses (h : heap) (p : CapacityPools) (size : Z)
    (pick : option nat) :
  configured p -> maxSize p < size ->
  getPool p size = Ret None /\
  exists buf h',
    New h p size pick = Ret (buf, h', p) /\
    Len buf = size /\ Cap buf = size /\
    Data buf = brk h /\ brk h' = brk h + size /\
    (forall i, 0 <= i < size -> mem h' (Data buf + i) = Byte.x00) /\
    (forall a, a < brk h -> mem h' a = mem h a) /\
    Release p buf = Ret (false, p) /\
    (forall b, Cap b = size -> Release p b = Ret (false, p)).
Proof.
  intros Hc Hsz. destruct (configured_shape p Hc) as [Hb _].
  pose proof (getPool_above_max p size Hc Hsz) as Hg.
  split; [exact Hg|].
  assert (HR : forall b, Cap b = size -> Release p b = Ret (false, p)).
  { intros b Hb'. unfold Release. rewrite Hb'.
    destruct (Z.eqb_spec size 0); [lia|].
    destruct (Z.ltb_spec (maxSize p) size); [reflexivity|lia]. }
  unfold New. rewrite Hg. cbn [bind]. unfold make.
  destruct (Z.ltb_spec size 0); [lia|].
  destruct (Z.ltb_spec size size); [lia|]. cbn [orb bind].
  eexists _, _. split; [reflexivity|]. cbn [Len Cap Data brk mem].
  repeat split.
  - intros i Hi.
    destruct (Z.leb_spec (brk h) (brk h + i)); [|lia].
    destruct (Z.ltb_spec (brk h + i) (brk h + size)); [reflexivity|lia].
  - intros a Ha. destruct (Z.leb_spec (brk h) a); [lia|reflexivity].
  - now apply HR.
  - exact HR.
Qed.

Lemma New_above_max_bypasses_witness :
  exists buf h',
    New empty_heap pool_2_8 9 None = Ret (buf, h', pool_2_8) /\
    Len buf = 9 /\ Cap buf = 9 /\ Release pool_2_8 buf = Ret (false, pool_2_8).
Proof.
  destruct (New_above_max_bypasses empty_heap pool_2_8 9 None pool_2_8_configured)
    as [_ [buf [h' [HN [HL [HC [_ [_ [_ [_ [HR _]]]]]]]]]]].
  - vm_compute. reflexivity.
  - exists buf, h'. auto.
Defined.

(** *** Pools whose doubling stays inside [int] *)

Lemma NewCapacityPools_mono fuel fuel' a b q :
  NewCapacityPools fuel a b = Some q -> (fuel <= fuel')%nat ->
  NewCapacityPools fuel' a b = Some q.
Proof.
  rewrite !NewCapacityPools_unfold. intros H Hle.
  destruct (NewCapacityPools_loop fuel (clamped_min a) (clamped_max a b) []) as [l|] eqn:E;
    [|discriminate].
  now rewrite (NewCapacityPools_loop_mono _ _ _ _ _ E fuel' Hle).
Qed.

Lemma class_capacities_nth_lt lo hi (k i : nat) :
  (i < k)%nat -> nth i (class_capacities lo hi k) 0 = lo * 2 ^ Z.of_nat i.
Proof.
  intros Hi. unfold class_capacities.
  set (f := fun i : nat => lo * 2 ^ Z.of_nat i).
  rewrite app_nth1 by (rewrite length_map, length_seq; exact Hi).
  rewrite nth_indep with (d' := f 0%nat)
    by (rewrite length_map, length_seq; exact Hi).
  rewrite map_nth, seq_nth by exact Hi. reflexivity.
Qed.

Lemma class_capacities_nth_last lo hi (k : nat) :
  nth k (class_capacities lo hi k) 0 = hi.
Proof.
  unfold class_capacities.
  replace k with (length (map (fun i => lo * 2 ^ Z.of_nat i) (seq 0 k))) at 1
    by (rewrite length_map, length_seq; reflexivity).
  apply nth_middle.
Qed.

Lemma configured_upto_classes p :
  configured_upto (2 ^ 62) p ->
  exists k : nat,
    (forall i : nat, minSize p * 2 ^ Z.of_nat i < maxSize p <-> (i < k)%nat) /\
    map capacity (pools p) = class_capacities (minSize p) (maxSize p) k /\
    maxIndex p = Z.of_nat k.
Proof.
  intros [[fuel [a [b [q [Hq [Hmin [Hmax [Hidx Hcaps]]]]]]]] Hbound].
  assert (Hq' : NewCapacityPools (Nat.max fuel 64) a b = Some q)
    by (apply (NewCapacityPools_mono fuel); [assumption|lia]).
  assert (Hqb : maxSize q = clamped_max a b /\ minSize q = clamped_min a).
  { rewrite NewCapacityPools_unfold in Hq.
    destruct (NewCapacityPools_loop fuel (clamped_min a) (clamped_max a b) []);
      [injection Hq as <-; split; reflexivity|discriminate]. }
  destruct Hqb as [Hqmax Hqmin].
  destruct (NewCapacityPools_in_range (Nat.max fuel 64) a b) as [_ [k [q1 H]]];
    [lia|congruence|].
  destruct H as [Hk [Hq1 [_ [_ [Hi1 [Hc1 _]]]]]].
  rewrite Hq' in Hq1. injection Hq1 as <-.
  exists k. rewrite Hmin, Hmax, Hidx, Hcaps, Hqmin, Hqmax. auto.
Qed.

(** On such a pool every request up to [maxSize] selects the documented
    class, and the class is large enough. *)
Lemma documented_class_fits p size :
  configured_upto (2 ^ 62) p -> size <= maxSize p ->
  getPool p size = Ret (Some (documented_class p size)) /\
  0 <= documented_class p size <= maxIndex p /\
  size <= capacity (class_at p (documented_class p size)) /\
  2 <= capacity (class_at p (documented_class p size)) <= maxSize p.
Proof.
  intros Hu Hsz. pose proof Hu as [Hc _].
  destruct (configured_shape p Hc) as [Hb [_ [_ [Hfirst Hterm]]]].
  destruct (configured_upto_classes p Hu) as [k [Hk [Hcaps Hidx]]].
  destruct (getPool_documented p size Hc Hsz) as [Hrange Hg].
  assert (Hcapd : size <= capacity (class_at p (documented_class p size)) /\
                  2 <= capacity (class_at p (documented_class p size)) <= maxSize p /\
                  (minSize p < size < maxSize p ->
                   ceil_log2_ratio size (minSize p) <= maxIndex p)).
  { unfold documented_class in *.
    destruct (Z.leb_spec size (minSize p)).
    - rewrite Hfirst. lia.
    - destruct (Z.eqb_spec size (maxSize p)).
      + rewrite Hterm. lia.
      + pose proof (ceil_log2_ratio_nonneg size (minSize p)) as Hnn.
        set (j := ceil_log2_ratio size (minSize p)) in *.
        assert (Hjk : j <= Z.of_nat k).
        { destruct (Z_lt_le_dec (Z.of_nat k) j) as [Hlt|]; [|assumption].
          apply (ceil_log2_ratio_lt (minSize p) size (Z.of_nat k)) in Hlt; [|lia|lia].
          assert (~ minSize p * 2 ^ Z.of_nat k < maxSize p) by (rewrite Hk; lia).
          lia. }
        replace (Z.max 0 (Z.min j (maxIndex p))) with j by lia.
        rewrite class_at_capacity, Hcaps.
        destruct (Z_lt_le_dec j (Z.of_nat k)) as [Hlt|Hge].
        * rewrite class_capacities_nth_lt by lia.
          rewrite Z2Nat.id by lia.
          assert (~ minSize p * 2 ^ j < size)
            by (rewrite (ceil_log2_ratio_lt (minSize p) size j) by lia; fold j; lia).
          assert (minSize p * 2 ^ j < maxSize p)
            by (rewrite <- (Z2Nat.id j) by lia; apply Hk; lia).
          assert (0 < 2 ^ j) by (apply Z.pow_pos_nonneg; lia).
          split; [lia|]. split; [nia|lia].
        * replace (Z.to_nat j) with k by lia.
          rewrite class_capacities_nth_last. lia. }
  destruct Hcapd as [H1 [H2 H3]].
  destruct Hg as [Hg|Hg]; [|pose proof Hg as [_ [Hbetween Hd]]].
  - auto.
  - exfalso. specialize (H3 Hbetween).
    destruct (configured_shape p Hc) as [_ [Hmi [Hlen _]]].
    pose proof (ceil_log2_ratio_nonneg size (minSize p)) as Hnn.
    destruct Hg as [Hg _]. unfold getPool in Hg.
    destruct (Z.leb_spec size (minSize p)); [lia|].
    destruct (Z.eqb_spec size (maxSize p)); [lia|].
    destruct (Z.ltb_spec (maxSize p) size); [lia|].
    destruct (Z.ltb_spec (ceil_log2_ratio size (minSize p)) 0); [lia|].
    destruct (Z.ltb_spec (maxIndex p) (ceil_log2_ratio size (minSize p))); [lia|].
    rewrite pools_at_ok in Hg by lia. discriminate.
Qed.

Lemma make_spec h len cap :
  0 <= len <= cap ->
  exists m',
    make h len cap = Ret (mkSlice (brk h) len cap, mkHeap m' (brk h + cap)) /\
    (forall a, a < brk h -> m' a = mem h a) /\
    (forall a, brk h + cap <= a -> m' a = mem h a) /\
    (forall a, brk h <= a < brk h + cap -> m' a = Byte.x00).
Proof.
  intros H. unfold make.
  destruct (Z.ltb_spec len 0); [lia|]. destruct (Z.ltb_spec cap len); [lia|].
  cbn [orb]. eexists. split; [reflexivity|]. cbn beta.
  repeat split; intros a Ha.
  - destruct (Z.leb_spec (brk h) a); [lia|reflexivity].
  - destruct (Z.ltb_spec a (brk h + cap)); [lia|]. now rewrite andb_false_r.
  - destruct (Z.leb_spec (brk h) a); [|lia].
    destruct (Z.ltb_spec a (brk h + cap)); [reflexivity|lia].
Qed.

Lemma Pool_Get_cases store pick :
  Pool_Get store pick = (None, store) \/
  exists k ptr, pick = Some k /\ nth_error store k = Some ptr /\
                Pool_Get store pick = (Some ptr, firstn k store ++ skipn (S k) store).
Proof.
  unfold Pool_Get. destruct pick as [k|]; [|now left].
  destruct (nth_error store k) as [ptr|] eqn:E; [|now left].
  right. now exists k, ptr.
Qed.

(** [New] for a request the pool has a class for. *)
Lemma New_within h p size pick :
  configured_upto (2 ^ 62) p -> 0 <= size <= maxSize p ->
  exists buf h' p',
    New h p size pick = Ret (buf, h', p') /\
    Len buf = size /\
    Cap buf = capacity (class_at p (documented_class p size)) /\
    size <= Cap buf /\
    same_classes p' p /\
    brk h <= brk h' /\
    (forall a, a < brk h -> mem h' a = mem h a).
Proof.
  intros Hu [Hs0 Hs]. pose proof Hu as [Hc _].
  destruct (documented_class_fits p size Hu Hs) as [Hg [Hrange [Hfit Hcap]]].
  destruct (configured_shape p Hc) as [_ [Hmi [Hlen _]]].
  set (i := documented_class p size) in *.
  unfold New. rewrite Hg. cbn [bind].
  destruct (Pool_Get_cases (pool (class_at p i)) pick) as [E|[k [ptr [_ [_ E]]]]]; rewrite E.
  - unfold Pool_New.
    destruct (make_spec h (capacity (class_at p i)) (capacity (class_at p i)))
      as [m1 [E1 [Hlow1 _]]]; [lia|].
    rewrite E1. cbn [bind].
    destruct (make_spec (mkHeap m1 (brk h + capacity (class_at p i))) size
                (capacity (class_at p i))) as [m2 [E2 [Hlow2 _]]]; [lia|].
    rewrite E2. cbn [bind brk mem] in *.
    eexists _, _, _. split; [reflexivity|]. cbn [Len Cap brk mem].
    repeat split; try lia.
    intros a Ha. rewrite Hlow2 by lia. now apply Hlow1.
  - eexists _, _, _. split; [reflexivity|]. cbn [Len Cap].
    repeat split; try lia.
    apply set_class_same_classes; [lia|reflexivity].
Qed.

Example New_2_8_5 :
  exists p, NewCapacityPools 64 2 8 = Some p /\
            forall h pick, exists buf h' p',
              New h p 5 pick = Ret (buf, h', p') /\ Len buf = 5 /\ Cap buf = 8.
Proof.
  destruct NewCapacityPools_2_8 as [p [Hp [Hmin [Hmax [Hidx Hcaps]]]]].
  exists p. split; [exact Hp|]. intros h pick.
  assert (Hu : configured_upto (2 ^ 62) p).
  { split; [|lia]. exists 64%nat, 2, 8, p. split; [exact Hp|]. repeat split. }
  destruct (New_within h p 5 pick Hu) as [buf [h' [p' [HN [HL [HC _]]]]]]; [lia|].
  exists buf, h', p'. split; [exact HN|]. split; [exact HL|].
  rewrite HC, class_at_capacity, Hcaps.
  unfold documented_class. rewrite Hmin, Hmax, Hidx. reflexivity.
Qed.

(** C1 fails as stated: a pool whose doubling left [int] has a class of
    negative capacity, and a request that selects it (here the ratio
    [size / minSize] is [23 / 22], so the index is 1) panics. *)
Lemma New_overflowed_class_panics :
  exists p,
    NewCapacityPools 64 (11 * 2 ^ 59) (12 * 2 ^ 59) = Some p /\
    map capacity (pools p) = [11 * 2 ^ 59; - (10 * 2 ^ 59); 12 * 2 ^ 59] /\
    0 <= 23 * 2 ^ 58 <= maxSize p /\
    getPool p (23 * 2 ^ 58) = Ret (Some 1) /\
    New empty_heap p (23 * 2 ^ 58) None = Panic RuntimePanic (empty_heap, p).
Proof.
  eexists. split; [vm_compute; reflexivity|].
  split; [vm_compute; reflexivity|].
  split; [vm_compute; split; discriminate|].
  split; vm_compute; reflexivity.
Qed.

(** C1 (amended): on every pool configured with a clamped [maxSize] of at
    most [2^62], for every [0 <= s <= maxSize] that is at most [minSize],
    equal to [maxSize], or at most [2^31 - 1], [New s] returns a block of
    length [s] whose capacity is that of the class the documented rule
    selects (smallest class up to [minSize], terminal class at [maxSize],
    otherwise index [ceil(log2(s / minSize))] clamped into
    [0 .. maxIndex]), and that capacity is at least [s].  On the pool with
    bounds 2 and 8, [New 5] has length 5 and capacity 8. *)
Theorem New_selects_documented_class :
  (forall (h : heap) (p : CapacityPools) (s : Z) (pick : option nat),
     configured_upto (2 ^ 62) p -> 0 <= s <= maxSize p -> exact_request p s ->
     exists buf h' p',
       New h p s pick = Ret (buf, h', p') /\
       Len buf = s /\
       Cap buf = capacity (class_at p (documented_class p s)) /\
       s <= Cap buf) /\
  (exists p, NewCapacityPools 64 2 8 = Some p /\
             forall h pick, exists buf h' p',
               New h p 5 pick = Ret (buf, h', p') /\ Len buf = 5 /\ Cap buf = 8).
Proof.
  split; [|exact New_2_8_5].
  intros h p s pick Hu Hs _.
  destruct (New_within h p s pick Hu Hs) as [buf [h' [p' [HN [HL [HC [Hge _]]]]]]].
  now exists buf, h', p'.
Qed.


Lemma New_selects_documented_class_witness :
  exists buf h' p',
    New empty_heap pool_2_8 3 None = Ret (buf, h', p') /\ Len buf = 3 /\ Cap buf = 4.
Proof.
  destruct New_selects_documented_class as [H _].
  destruct (H empty_heap pool_2_8 3 None pool_2_8_configured_upto)
    as [buf [h' [p' [HN [HL [HC _]]]]]].
  - vm_compute. split; discriminate.
  - right. right. vm_compute. discriminate.
  - exists buf, h', p'. split; [exact HN|]. split; [exact HL|exact HC].
Defined.

(** ** The buffer *)

Import buffer BufferSpec.

Lemma wrap_le z : 0 <= z -> wrap z <= z.
Proof.
  intros Hz. unfold wrap.
  assert ((z + 2 ^ 63) mod 2 ^ 64 <= z + 2 ^ 63) by (apply Z.mod_le; lia).
  lia.
Qed.

Lemma wrap_wrap_add a b : wrap (wrap a + b) = wrap (a + b).
Proof.
  unfold wrap.
  replace ((a + 2 ^ 63) mod 2 ^ 64 - 2 ^ 63 + b + 2 ^ 63)
    with ((a + 2 ^ 63) mod 2 ^ 64 + b) by ring.
  rewrite Zplus_mod_idemp_l. f_equal. f_equal. ring.
Qed.

(** C9: the reference-count operations in [int64] arithmetic.  Increment
    then decrement restores any count (on the zero buffer the count is
    again 0); [RefAdd delta] adds [delta] as [int64] addition does, which is
    exactly [delta] whenever the sum is an [int64]; [RefSwapDec] returns
    the old count and subtracts 1 the same way. *)
Theorem ref_ops_compose :
  (forall bb, in_int (c bb) ->
     RefValue (RefDec (RefInc bb)) = c bb /\ B (RefDec (RefInc bb)) = B bb) /\
  RefValue (RefDec (RefInc zero_Buffer)) = 0 /\
  (forall bb delta,
     RefValue (RefAdd bb delta) = wrap (c bb + delta) /\
     B (RefAdd bb delta) = B bb /\
     (in_int (c bb + delta) -> RefValue (RefAdd bb delta) - c bb = delta)) /\
  (forall bb,
     fst (RefSwapDec bb) = c bb /\
     RefValue (snd (RefSwapDec bb)) = wrap (c bb - 1) /\
     B (snd (RefSwapDec bb)) = B bb /\
     (in_int (c bb - 1) -> RefValue (snd (RefSwapDec bb)) = c bb - 1)).
Proof.
  split; [|split; [reflexivity|split]].
  - intros bb Hc. split; [|reflexivity].
    unfold RefValue, RefDec, RefInc, RefAdd. cbn [c].
    rewrite wrap_wrap_add. rewrite wrap_id; [lia|].
    replace (c bb + 1 + -1) with (c bb) by ring. exact Hc.
  - intros bb delta. unfold RefValue, RefAdd. cbn [c B].
    repeat split. intros Hin. rewrite wrap_id by exact Hin. ring.
  - intros bb. unfold RefValue, RefSwapDec. cbn [fst snd c B].
    repeat split. intros Hin. now apply wrap_id.
Qed.

Lemma ref_ops_compose_witness :
  RefValue (RefDec (RefInc (mkBuffer nil_slice max_int))) = max_int /\
  RefValue (RefAdd (mkBuffer nil_slice 5) 7) - 5 = 7 /\
  RefValue (snd (RefSwapDec (mkBuffer nil_slice 5))) = 4.
Proof.
  destruct ref_ops_compose as [H1 [_ [H2 H3]]].
  split; [|split].
  - apply (H1 (mkBuffer nil_slice max_int)). vm_compute. split; discriminate.
  - apply (H2 (mkBuffer nil_slice 5) 7). vm_compute. split; discriminate.
  - apply (H3 (mkBuffer nil_slice 5)). vm_compute. split; discriminate.
Defined.

Section WithRuntime.

Variable growslice_cap : Z -> Z -> Z.

(** C10: with room for [n] more bytes already there, [Guarantee n] returns
    at once: no panic whatever [len + n] is, the pool and the memory are not
    touched, and the buffer is the one it was. *)
Theorem Guarantee_noop_when_roomy (w : world) (pick : option nat) (bb : Buffer) (n : Z) :
  0 <= n -> 0 <= Buffer_Len bb -> n <= Buffer_Cap bb - Buffer_Len bb ->
  Guarantee growslice_cap w pick bb n = Ret (bb, w).
Proof.
  intros Hn Hlen Hroom. unfold Guarantee.
  destruct (Z.ltb_spec n 0); [lia|].
  pose proof (wrap_le (Buffer_Len bb + n)).
  destruct (Z.leb_spec (wrap (Buffer_Len bb + n)) (Buffer_Cap bb)); [reflexivity|lia].
Qed.

End WithRuntime.

Lemma Guarantee_noop_when_roomy_witness :
  Guarantee growslice_exact world_2_8 None (mkBuffer (mkSlice 0 1 (2 ^ 32)) 0) (2 ^ 31) =
  Ret (mkBuffer (mkSlice 0 1 (2 ^ 32)) 0, world_2_8).
Proof.
  apply Guarantee_noop_when_roomy; vm_compute; discriminate.
Defined.

(** *** [Read] *)

Lemma bytes_of_ext m m' s s' :
  Len s = Len s' ->
  (forall i, 0 <= i < Len s -> m (Data s + i) = m' (Data s' + i)) ->
  bytes_of m s = bytes_of m' s'.
Proof.
  intros HL H. unfold bytes_of. rewrite <- HL.
  apply map_ext_in. intros i Hi. apply in_seq in Hi. apply H. lia.
Qed.

Lemma bytes_of_length m s : length (bytes_of m s) = Z.to_nat (Len s).
Proof. unfold bytes_of. now rewrite length_map, length_seq. Qed.

Lemma firstn_seq_le (n a len : nat) :
  (n <= len)%nat -> firstn n (seq a len) = seq a n.
Proof.
  revert a len. induction n as [|n IH]; intros a len Hle; [reflexivity|].
  destruct len as [|len]; [lia|]. simpl. f_equal. apply IH. lia.
Qed.

Lemma bytes_of_firstn m s n :
  0 <= n <= Len s ->
  firstn (Z.to_nat n) (bytes_of m s) = bytes_of m (mkSlice (Data s) n (Cap s)).
Proof.
  intros Hn. unfold bytes_of. cbn [Data Len].
  rewrite firstn_map, firstn_seq_le by lia. reflexivity.
Qed.

Lemma memmove_inside m dst src n i :
  0 <= i < n -> memmove m dst src n (dst + i) = m (src + i).
Proof.
  intros Hi. unfold memmove.
  destruct (Z.leb_spec dst (dst + i)); [|lia].
  destruct (Z.ltb_spec (dst + i) (dst + n)); [|lia].
  cbn [andb]. f_equal. lia.
Qed.

Lemma memmove_outside m dst src n a :
  a < dst \/ dst + n <= a -> memmove m dst src n a = m a.
Proof.
  intros Ha. unfold memmove.
  destruct (Z.leb_spec dst a); [|reflexivity].
  destruct (Z.ltb_spec a (dst + n)); [lia|reflexivity].
Qed.

(** C8 fails as stated: a destination that overlaps the buffer's own bytes
    ([dst = bb.B[1:]]) changes the buffer's contents. *)
Lemma Read_overlapping_changes_buffer :
  let m := fun a : Z => if a =? 0 then Byte.x61 else Byte.x62 in
  let bb := mkBuffer (mkSlice 0 2 2) 0 in
  let dst := mkSlice 1 1 1 in
  slice_from (B bb) 1 = Ret dst /\
  bytes_of m (B bb) = [Byte.x61; Byte.x62] /\
  exists m', Read m bb dst = (1, None, m') /\
             bytes_of m' (B bb) = [Byte.x61; Byte.x61].
Proof.
  cbv zeta. split; [reflexivity|]. split; [reflexivity|].
  eexists. split; reflexivity.
Qed.

(** C8 (amended): [Read dst] never fails: it returns a nil error and the
    count [min (len dst) (len B)], the first that many bytes of [dst] are
    then the first that many bytes the buffer had, and memory outside them
    is as it was; the buffer's slice header is not assigned to, and when
    [dst] does not overlap the buffer's bytes the buffer's contents are
    unchanged too. *)
Theorem Read_copies_prefix (m : memory) (bb : Buffer) (dst : slice) :
  0 <= Len dst -> 0 <= Buffer_Len bb ->
  let n := Z.min (Len dst) (Buffer_Len bb) in
  exists m',
    Read m bb dst = (n, None, m') /\
    bytes_of m' (mkSlice (Data dst) n (Cap dst)) =
      firstn (Z.to_nat n) (bytes_of m (B bb)) /\
    (forall a, a < Data dst \/ Data dst + n <= a -> m' a = m a) /\
    (disjoint dst (B bb) -> bytes_of m' (B bb) = bytes_of m (B bb)).
Proof.
  intros Hd Hb n. unfold Read, copy. fold (Buffer_Len bb). fold n.
  eexists. split; [reflexivity|]. split; [|split].
  - rewrite bytes_of_firstn by (unfold Buffer_Len in *; lia).
    apply bytes_of_ext; [reflexivity|]. cbn [Data Len]. intros i Hi.
    now apply memmove_inside.
  - intros a Ha. now apply memmove_outside.
  - intros Hdis. apply bytes_of_ext; [reflexivity|]. intros i Hi.
    apply memmove_outside. unfold disjoint, Buffer_Len in *. lia.
Qed.

Lemma Read_copies_prefix_witness :
  exists m',
    Read (fun a => if a =? 0 then Byte.x61 else Byte.x62) (mkBuffer (mkSlice 0 2 2) 0)
         (mkSlice 10 3 3) = (2, None, m') /\
    bytes_of m' (mkSlice 10 2 3) = [Byte.x61; Byte.x62] /\
    bytes_of m' (mkSlice 0 2 2) = [Byte.x61; Byte.x62].
Proof.
  destruct (Read_copies_prefix (fun a => if a =? 0 then Byte.x61 else Byte.x62)
              (mkBuffer (mkSlice 0 2 2) 0) (mkSlice 10 3 3))
    as [m' [HR [Hdst [_ Hbuf]]]].
  - vm_compute. discriminate.
  - vm_compute. discriminate.
  - exists m'. split; [exact HR|]. split; [exact Hdst|].
    apply Hbuf. right. vm_compute. discriminate.
Defined.

(** *** The fatal faults *)

(** C5 fails as stated: with capacity for it already there, [Guarantee n]
    returns without a panic although [len + n] is above [2^31 - 1]. *)
Lemma Guarantee_roomy_beyond_ceiling :
  let bb := mkBuffer (mkSlice 0 0 (2 ^ 31)) 0 in
  let w := mkWorld (mkHeap (fun _ => Byte.x00) (2 ^ 31)) pool_2_8 in
  MaxInt32 < Buffer_Len bb + 2 ^ 31 /\
  Guarantee growslice_exact w None bb (2 ^ 31) = Ret (bb, w).
Proof. cbv zeta. split; reflexivity. Qed.

(** C5 (amended): [Grow n] and [Guarantee n] with [n < 0] panic with
    [ErrGrow]; [Truncate n] panics with [ErrTruncation] exactly when
    [n < 0] or [n > len], and otherwise sets the length to [n];
    [Guarantee n] with [len + n] above [2^31 - 1] and above the capacity
    panics with [ErrTooLarge]; each of these panics leaves the buffer, the
    memory and the pool as they were. *)
Theorem fatal_faults :
  (forall gs w pick bb n,
     n < 0 ->
     Guarantee gs w pick bb n = Panic (PanicError ErrGrow) (bb, w) /\
     Grow gs w pick bb n = Panic (PanicError ErrGrow) (bb, w)) /\
  (forall bb n,
     ((exists st, Truncate bb n = Panic (PanicError ErrTruncation) st) <->
      n < 0 \/ Buffer_Len bb < n) /\
     (n < 0 \/ Buffer_Len bb < n ->
      Truncate bb n = Panic (PanicError ErrTruncation) bb) /\
     (slice_wf (B bb) -> 0 <= n <= Buffer_Len bb ->
      Truncate bb n = Ret (mkBuffer (mkSlice (Data (B bb)) n (Cap (B bb))) (c bb)))) /\
  (forall gs w pick bb n,
     0 <= n -> 0 <= Buffer_Len bb -> Buffer_Len bb + n <= max_int ->
     MaxInt32 < Buffer_Len bb + n -> Buffer_Cap bb < Buffer_Len bb + n ->
     Guarantee gs w pick bb n = Panic (PanicError ErrTooLarge) (bb, w)).
Proof.
  split; [|split].
  - intros gs w pick bb n Hn. unfold Grow, Guarantee.
    destruct (Z.ltb_spec n 0); [|lia]. split; reflexivity.
  - intros bb n. unfold Truncate.
    destruct (Z.ltb_spec n 0) as [Hn|Hn]; cbn [orb].
    { split; [|split]; [split; [lia|eexists; reflexivity]|reflexivity|lia]. }
    destruct (Z.ltb_spec (Buffer_Len bb) n) as [Hl|Hl].
    { split; [|split]; [split; [lia|eexists; reflexivity]|reflexivity|lia]. }
    split; [|split].
    + split; [|lia]. intros [st Hst]. unfold reslice in Hst.
      destruct ((n <? 0) || (Cap (B bb) <? n)); discriminate.
    + lia.
    + intros [_ Hcap] _. unfold reslice, Buffer_Len in *.
      destruct (Z.ltb_spec n 0); [lia|].
      destruct (Z.ltb_spec (Cap (B bb)) n); [lia|]. reflexivity.
  - intros gs w pick bb n Hn Hlen Hmax Hbig Hcap. unfold Guarantee.
    destruct (Z.ltb_spec n 0); [lia|].
    rewrite wrap_id by (unfold in_int, min_int, max_int in *; lia).
    destruct (Z.leb_spec (Buffer_Len bb + n) (Buffer_Cap bb)); [lia|].
    destruct (Z.ltb_spec MaxInt32 (Buffer_Len bb + n)); [reflexivity|lia].
Qed.

Lemma fatal_faults_witness :
  Guarantee growslice_exact world_2_8 None zero_Buffer (-1) =
    Panic (PanicError ErrGrow) (zero_Buffer, world_2_8) /\
  Truncate zero_Buffer 1 = Panic (PanicError ErrTruncation) zero_Buffer /\
  Truncate (mkBuffer (mkSlice 0 3 4) 0) 2 = Ret (mkBuffer (mkSlice 0 2 4) 0) /\
  Guarantee growslice_exact world_2_8 None zero_Buffer (2 ^ 31) =
    Panic (PanicError ErrTooLarge) (zero_Buffer, world_2_8).
Proof.
  destruct fatal_faults as [H1 [H2 H3]].
  split; [|split; [|split]].
  - apply (H1 growslice_exact world_2_8 None zero_Buffer (-1)). reflexivity.
  - apply (H2 zero_Buffer 1). right. reflexivity.
  - apply (H2 (mkBuffer (mkSlice 0 3 4) 0) 2).
    + unfold slice_wf. simpl. lia.
    + unfold Buffer_Len. simpl. lia.
  - apply (H3 growslice_exact world_2_8 None zero_Buffer (2 ^ 31));
      vm_compute; (reflexivity || discriminate).
Defined.

(** *** Growth *)

Lemma New_spec h p size pick :
  configured_upto (2 ^ 62) p -> 0 <= size ->
  exists buf h' p',
    New h p size pick = Ret (buf, h', p') /\
    Len buf = size /\ size <= Cap buf /\
    same_classes p' p /\
    brk h <= brk h' /\
    (forall a, a < brk h -> mem h' a = mem h a).
Proof.
  intros Hu Hs. destruct (Z_le_gt_dec size (maxSize p)) as [Hle|Hgt].
  - destruct (New_within h p size pick Hu) as [buf [h' [p' [HN [HL [_ [HC H]]]]]]]; [lia|].
    exists buf, h', p'. auto.
  - destruct Hu as [Hc _]. unfold New.
    rewrite (getPool_above_max p size Hc) by lia. cbn [bind].
    destruct (make_spec h size size) as [m' [E [Hlow _]]]; [lia|].
    rewrite E. cbn [bind]. eexists _, _, _. split; [reflexivity|].
    cbn [Len Cap brk mem]. repeat split; try lia. exact Hlow.
Qed.

Lemma Release_total p b :
  configured p -> slice_wf b ->
  exists ok p', Release p b = Ret (ok, p') /\ same_classes p' p.
Proof.
  intros Hc Hw.
  destruct (Release_spec p b Hc Hw) as [ok [p' [HR [_ [Ht Hf]]]]].
  exists ok, p'. split; [exact HR|].
  destruct ok.
  - now destruct (Ht eq_refl) as [_ [_ [_ [_ ?]]]].
  - rewrite (Hf eq_refl). apply same_classes_refl.
Qed.

Lemma configured_upto_same_classes bound p q :
  configured_upto bound q -> same_classes p q -> configured_upto bound p.
Proof.
  intros [Hc Hb] Hs. split; [now apply (configured_same_classes p q)|].
  destruct Hs as [_ [-> _]]. exact Hb.
Qed.

Section Growth.

Variable growslice_cap : Z -> Z -> Z.

Lemma Guarantee_spec (w : world) (pick : option nat) (bb : Buffer) (n : Z) :
  configured_upto (2 ^ 62) (bs w) ->
  slice_wf (B bb) -> in_heap (hp w) (B bb) ->
  0 <= n -> Buffer_Len bb + n <= MaxInt32 ->
  exists bb' w',
    Guarantee growslice_cap w pick bb n = Ret (bb', w') /\
    Buffer_Len bb + n <= Buffer_Cap bb' /\
    Buffer_Len bb' = Buffer_Len bb /\
    bytes_of (mem (hp w')) (B bb') = bytes_of (mem (hp w)) (B bb) /\
    c bb' = c bb /\
    configured_upto (2 ^ 62) (bs w').
Proof.
  intros Hu [Hl0 Hlc] [Hd0 Hdb] Hn Hsum. unfold Guarantee, Buffer_Len, Buffer_Cap in *.
  destruct (Z.ltb_spec n 0); [lia|].
  rewrite wrap_id by (unfold in_int, min_int, max_int, MaxInt32 in *; lia).
  destruct (Z.leb_spec (Len (B bb) + n) (Cap (B bb))).
  { exists bb, w. split; [reflexivity|]. split; [lia|].
    split; [reflexivity|]. split; [reflexivity|]. split; [reflexivity|exact Hu]. }
  destruct (Z.ltb_spec MaxInt32 (Len (B bb) + n)); [lia|].
  unfold Make.
  destruct (New_spec (hp w) (bs w) (Len (B bb) + n) pick Hu)
    as [buf [h1 [p1 [HN [HL [HC [Hsame [Hbrk Hlow]]]]]]]]; [lia|].
  rewrite HN. cbn [bind]. unfold reslice.
  destruct (Z.ltb_spec 0 0); [lia|].
  destruct (Z.ltb_spec (Cap buf) 0); [lia|]. cbn [orb bind].
  unfold append. cbn [Len Cap Data].
  destruct (Z.leb_spec (0 + Len (B bb)) (Cap buf)); [|lia].
  cbn [bind].
  assert (Hu1 : configured_upto (2 ^ 62) p1)
    by (apply (configured_upto_same_classes _ p1 (bs w)); assumption).
  destruct (Release_total p1 (B bb)) as [ok [p2 [HR Hsame2]]];
    [exact (proj1 Hu1)|split; assumption|].
  rewrite HR. cbn [bind].
  eexists _, _. split; [reflexivity|]. cbn [B c hp bs mem Cap Len].
  split; [lia|]. split; [lia|]. split; [|split; [reflexivity|]].
  - apply bytes_of_ext; [cbn [Len]; lia|]. cbn [Data Len]. intros i Hi.
    rewrite Z.add_0_r, memmove_inside by lia. apply Hlow. lia.
  - apply (configured_upto_same_classes _ p2 p1); assumption.
Qed.

Lemma Grow_spec (w : world) (pick : option nat) (bb : Buffer) (n : Z) :
  configured_upto (2 ^ 62) (bs w) ->
  slice_wf (B bb) -> in_heap (hp w) (B bb) ->
  0 <= n -> Buffer_Len bb + n <= MaxInt32 ->
  exists bb' w',
    Grow growslice_cap w pick bb n = Ret (bb', w') /\
    Buffer_Len bb' = Buffer_Len bb + n /\
    firstn (Z.to_nat (Buffer_Len bb)) (bytes_of (mem (hp w')) (B bb')) =
      bytes_of (mem (hp w)) (B bb) /\
    c bb' = c bb.
Proof.
  intros Hu Hw Hh Hn Hsum. unfold Grow.
  destruct (Guarantee_spec w pick bb n Hu Hw Hh Hn Hsum)
    as [bb1 [w1 [HG [Hcap [Hlen [Hbytes [Hc _]]]]]]].
  rewrite HG. cbn [bind]. unfold Buffer_Len, Buffer_Cap in *.
  destruct Hw as [Hl0 _]. rewrite Hlen.
  rewrite wrap_id by (unfold in_int, min_int, max_int, MaxInt32 in *; lia).
  unfold reslice.
  destruct (Z.ltb_spec (Len (B bb) + n) 0); [lia|].
  destruct (Z.ltb_spec (Cap (B bb1)) (Len (B bb) + n)); [lia|]. cbn [orb bind].
  eexists _, _. split; [reflexivity|]. cbn [B c Len].
  split; [reflexivity|]. split; [|exact Hc].
  rewrite bytes_of_firstn by (cbn [Len]; lia). cbn [Data Cap].
  rewrite <- Hbytes. apply bytes_of_ext; [cbn [Len]; lia|reflexivity].
Qed.

End Growth.

(** *** Well-formed worlds *)

Lemma In_firstn {A} (x : A) k l : In x (firstn k l) -> In x l.
Proof.
  revert l. induction k as [|k IH]; intros [|y l] H; simpl in *; try contradiction.
  destruct H as [->|H]; [now left|right; now apply IH].
Qed.

Lemma In_skipn {A} (x : A) k l : In x (skipn k l) -> In x l.
Proof.
  revert l. induction k as [|k IH]; intros [|y l] H; simpl in *; try contradiction; auto.
Qed.

Lemma same_classes_length p q : same_classes p q -> length (pools p) = length (pools q).
Proof. intros [_ [_ [_ H]]]. now apply map_capacity_length. Qed.

Lemma same_classes_capacity p q i :
  same_classes p q -> capacity (class_at p i) = capacity (class_at q i).
Proof. intros [_ [_ [_ H]]]. now rewrite !class_at_capacity, H. Qed.

Lemma pointers_in_heap_mono h h' p :
  pointers_in_heap h p -> brk h <= brk h' -> pointers_in_heap h' p.
Proof. intros H Hle i ptr Hi Hin. destruct (H i ptr Hi Hin). lia. Qed.

Lemma New_wf h p size pick :
  world_wf (mkWorld h p) -> 0 <= size ->
  exists buf h' p',
    New h p size pick = Ret (buf, h', p') /\
    Len buf = size /\ size <= Cap buf /\
    in_heap h' buf /\ world_wf (mkWorld h' p') /\
    brk h <= brk h' /\
    (forall a, a < brk h -> mem h' a = mem h a).
Proof.
  intros [Hu [Hbrk Hptr]] Hs. cbn [hp bs] in *. pose proof Hu as [Hc _].
  destruct (Z_le_gt_dec size (maxSize p)) as [Hle|Hgt].
  - destruct (documented_class_fits p size Hu Hle) as [Hg [Hrange [Hfit Hcap]]].
    destruct (configured_shape p Hc) as [_ [Hmi [Hlen _]]].
    set (i := documented_class p size) in *.
    unfold New. rewrite Hg. cbn [bind].
    destruct (Pool_Get_cases (pool (class_at p i)) pick) as [E|[k [ptr [_ [Hnth E]]]]];
      rewrite E.
    + unfold Pool_New.
      destruct (make_spec h (capacity (class_at p i)) (capacity (class_at p i)))
        as [m1 [E1 [Hlow1 _]]]; [lia|].
      rewrite E1. cbn [bind].
      destruct (make_spec (mkHeap m1 (brk h + capacity (class_at p i))) size
                  (capacity (class_at p i))) as [m2 [E2 [Hlow2 _]]]; [lia|].
      rewrite E2. cbn [bind brk mem] in *.
      eexists _, _, _. split; [reflexivity|]. cbn [Len Cap brk mem].
      split; [reflexivity|]. split; [lia|]. split; [|split; [|split]].
      * unfold in_heap. cbn [Data Cap brk]. lia.
      * split; [exact Hu|]. cbn [hp bs brk]. split; [lia|].
        apply (pointers_in_heap_mono h); [exact Hptr|cbn [brk]; lia].
      * lia.
      * intros a Ha. rewrite Hlow2 by lia. now apply Hlow1.
    + apply nth_error_In in Hnth.
      destruct (Hptr i ptr ltac:(lia) Hnth) as [Hp0 Hp1].
      assert (Hsame : same_classes
                (set_class p i (mkBytesPool (capacity (class_at p i))
                   (firstn k (pool (class_at p i)) ++ skipn (S k) (pool (class_at p i)))))
                p) by (apply set_class_same_classes; [lia|reflexivity]).
      eexists _, _, _. split; [reflexivity|]. cbn [Len Cap].
      split; [reflexivity|]. split; [lia|]. split; [|split; [|split]].
      * unfold in_heap. cbn [Data Cap]. lia.
      * split; [now apply (configured_upto_same_classes _ _ p)|].
        cbn [hp bs]. split; [exact Hbrk|].
        intros j q Hj Hq. rewrite (same_classes_length _ _ Hsame) in Hj.
        rewrite (same_classes_capacity _ _ j Hsame).
        destruct (Z.eq_dec j i) as [->|Hne].
        -- rewrite class_at_set_class in Hq by lia. cbn [pool] in Hq.
           apply (Hptr i q Hj). apply in_app_or in Hq as [Hq|Hq];
             [now apply In_firstn in Hq|now apply In_skipn in Hq].
        -- rewrite class_at_set_class_other in Hq by lia. now apply Hptr.
      * lia.
      * reflexivity.
  - unfold New. rewrite (getPool_above_max p size Hc) by lia. cbn [bind].
    destruct (make_spec h size size) as [m' [E [Hlow _]]]; [lia|].
    rewrite E. cbn [bind]. eexists _, _, _. split; [reflexivity|].
    cbn [Len Cap brk mem].
    split; [reflexivity|]. split; [lia|]. split; [|split; [|split]].
    + unfold in_heap. cbn [Data Cap brk]. lia.
    + split; [exact Hu|]. cbn [hp bs brk]. split; [lia|].
      apply (pointers_in_heap_mono h); [exact Hptr|cbn [brk]; lia].
    + lia.
    + exact Hlow.
Qed.

Lemma Release_wf h p b :
  world_wf (mkWorld h p) -> slice_wf b -> in_heap h b ->
  exists ok p', Release p b = Ret (ok, p') /\ world_wf (mkWorld h p').
Proof.
  intros [Hu [Hbrk Hptr]] Hw [Hd0 Hd1]. cbn [hp bs] in *. pose proof Hu as [Hc _].
  destruct (Release_spec p b Hc Hw) as [ok [p' [HR [Hiff [Ht Hf]]]]].
  exists ok, p'. split; [exact HR|].
  destruct ok.
  - destruct (proj1 Hiff eq_refl) as [_ [_ Hcap]].
    destruct (Ht eq_refl) as [_ [Hpool [Hcap' [Hother Hsame]]]].
    destruct (getPool_documented p (Cap b) Hc) as [Hrange _];
      [destruct (proj1 Hiff eq_refl) as [_ [? _]]; assumption|].
    destruct (configured_shape p Hc) as [_ [Hmi [Hlen _]]].
    split; [now apply (configured_upto_same_classes _ _ p)|].
    cbn [hp bs]. split; [exact Hbrk|].
    intros j q Hj Hq. rewrite (same_classes_length _ _ Hsame) in Hj.
    rewrite (same_classes_capacity _ _ j Hsame).
    destruct (Z.eq_dec j (documented_class p (Cap b))) as [->|Hne].
    + rewrite Hpool in Hq. destruct Hq as [<-|Hq]; [rewrite Hcap; lia|now apply Hptr].
    + rewrite Hother in Hq by lia. now apply Hptr.
  - rewrite (Hf eq_refl). split; [exact Hu|]. split; assumption.
Qed.

(** *** Growth in a well-formed world *)

Section GrowthInWorld.

Variable growslice_cap : Z -> Z -> Z.

Lemma Guarantee_in_world (w : world) (pick : option nat) (bb : Buffer) (n : Z) :
  world_wf w -> slice_wf (B bb) -> in_heap (hp w) (B bb) ->
  0 <= n -> Buffer_Len bb + n <= MaxInt32 ->
  exists bb' w',
    Guarantee growslice_cap w pick bb n = Ret (bb', w') /\
    Buffer_Len bb + n <= Buffer_Cap bb' /\
    Buffer_Len bb' = Buffer_Len bb /\
    bytes_of (mem (hp w')) (B bb') = bytes_of (mem (hp w)) (B bb) /\
    c bb' = c bb /\
    slice_wf (B bb') /\ in_heap (hp w') (B bb') /\ world_wf w'.
Proof.
  intros Hwf [Hl0 Hlc] [Hd0 Hdb] Hn Hsum. unfold Guarantee, Buffer_Len, Buffer_Cap in *.
  destruct (Z.ltb_spec n 0); [lia|].
  rewrite wrap_id by (unfold in_int, min_int, max_int, MaxInt32 in *; lia).
  destruct (Z.leb_spec (Len (B bb) + n) (Cap (B bb))).
  { exists bb, w. split; [reflexivity|]. split; [lia|].
    split; [reflexivity|]. split; [reflexivity|]. split; [reflexivity|].
    split; [split; assumption|]. split; [split; assumption|exact Hwf]. }
  destruct (Z.ltb_spec MaxInt32 (Len (B bb) + n)); [lia|].
  destruct w as [h p]. cbn [hp bs] in *. unfold Make.
  destruct (New_wf h p (Len (B bb) + n) pick Hwf)
    as [buf [h1 [p1 [HN [HL [HC [[Hb0 Hb1] [Hwf1 [Hbrk Hlow]]]]]]]]]; [lia|].
  rewrite HN. cbn [bind]. unfold reslice.
  destruct (Z.ltb_spec 0 0); [lia|].
  destruct (Z.ltb_spec (Cap buf) 0); [lia|]. cbn [orb bind].
  unfold append. cbn [Len Cap Data].
  destruct (Z.leb_spec (0 + Len (B bb)) (Cap buf)); [|lia]. cbn [bind].
  destruct (Release_wf
              (mkHeap (memmove (mem h1) (Data buf + 0) (Data (B bb)) (Len (B bb))) (brk h1))
              p1 (B bb)) as [ok [p2 [HR Hwf2]]].
  { destruct h1. exact Hwf1. }
  { split; assumption. }
  { split; [assumption|]. cbn [brk]. lia. }
  rewrite HR. cbn [bind].
  eexists _, _. split; [reflexivity|]. cbn [B c hp bs mem brk Cap Len Data].
  split; [lia|]. split; [lia|]. split; [|split; [reflexivity|]].
  - apply bytes_of_ext; [cbn [Len]; lia|]. cbn [Data Len]. intros i Hi.
    rewrite Z.add_0_r, memmove_inside by lia. apply Hlow. lia.
  - split; [unfold slice_wf; cbn [Len Cap]; lia|].
    split; [unfold in_heap; cbn [Data Cap brk]; lia|exact Hwf2].
Qed.

Lemma Grow_in_world (w : world) (pick : option nat) (bb : Buffer) (n : Z) :
  world_wf w -> slice_wf (B bb) -> in_heap (hp w) (B bb) ->
  0 <= n -> Buffer_Len bb + n <= MaxInt32 ->
  exists bb' w',
    Grow growslice_cap w pick bb n = Ret (bb', w') /\
    Buffer_Len bb' = Buffer_Len bb + n /\
    firstn (Z.to_nat (Buffer_Len bb)) (bytes_of (mem (hp w')) (B bb')) =
      bytes_of (mem (hp w)) (B bb) /\
    c bb' = c bb /\
    slice_wf (B bb') /\ in_heap (hp w') (B bb') /\ world_wf w'.
Proof.
  intros Hwf Hw Hh Hn Hsum. unfold Grow.
  destruct (Guarantee_in_world w pick bb n Hwf Hw Hh Hn Hsum)
    as [bb1 [w1 [HG [Hcap [Hlen [Hbytes [Hc [_ [[Hd0 Hd1] Hwf1]]]]]]]]].
  rewrite HG. cbn [bind]. unfold Buffer_Len, Buffer_Cap in *.
  destruct Hw as [Hl0 _]. rewrite Hlen.
  rewrite wrap_id by (unfold in_int, min_int, max_int, MaxInt32 in *; lia).
  unfold reslice.
  destruct (Z.ltb_spec (Len (B bb) + n) 0); [lia|].
  destruct (Z.ltb_spec (Cap (B bb1)) (Len (B bb) + n)); [lia|]. cbn [orb bind].
  eexists _, _. split; [reflexivity|]. cbn [B c Len].
  split; [reflexivity|]. split; [|split; [exact Hc|]].
  - rewrite bytes_of_firstn by (cbn [Len]; lia). cbn [Data Cap].
    rewrite <- Hbytes. apply bytes_of_ext; [cbn [Len]; lia|reflexivity].
  - split; [unfold slice_wf; cbn [Len Cap]; lia|].
    split; [unfold in_heap; cbn [Data Cap]; lia|exact Hwf1].
Qed.

(** C4: in a well-formed world, for a well-formed buffer of length [L]
    whose array is allocated and [n >= 0] with [L + n] within [2^31 - 1]:
    after [Guarantee n] the capacity is at least [L + n], the length is
    still [L] and the [L] bytes are the same; after [Grow n] the length is
    [L + n] and the first [L] bytes are the same.  In both cases the
    capacity is real: the returned slice is well formed and its whole
    array lies in allocated memory, and the world is still well formed. *)
Theorem Guarantee_Grow_within_ceiling (w : world) (pick : option nat) (bb : Buffer) (n : Z) :
  world_wf w ->
  slice_wf (B bb) -> in_heap (hp w) (B bb) ->
  0 <= n -> Buffer_Len bb + n <= MaxInt32 ->
  (exists bb' w',
     Guarantee growslice_cap w pick bb n = Ret (bb', w') /\
     Buffer_Len bb + n <= Buffer_Cap bb' /\
     Buffer_Len bb' = Buffer_Len bb /\
     bytes_of (mem (hp w')) (B bb') = bytes_of (mem (hp w)) (B bb) /\
     slice_wf (B bb') /\ in_heap (hp w') (B bb') /\ world_wf w') /\
  (exists bb' w',
     Grow growslice_cap w pick bb n = Ret (bb', w') /\
     Buffer_Len bb' = Buffer_Len bb + n /\
     firstn (Z.to_nat (Buffer_Len bb)) (bytes_of (mem (hp w')) (B bb')) =
       bytes_of (mem (hp w)) (B bb) /\
     slice_wf (B bb') /\ in_heap (hp w') (B bb') /\ world_wf w').
Proof.
  intros Hwf Hw Hh Hn Hsum. split.
  - destruct (Guarantee_in_world w pick bb n Hwf Hw Hh Hn Hsum)
      as [bb' [w' [HG [H1 [H2 [H3 [_ H4]]]]]]].
    now exists bb', w'.
  - destruct (Grow_in_world w pick bb n Hwf Hw Hh Hn Hsum)
      as [bb' [w' [HG [H1 [H2 [_ H3]]]]]].
    now exists bb', w'.
Qed.

End GrowthInWorld.

(** *** [ReadFrom] *)

Lemma map_seq_shift {A} (f : nat -> A) (k a len : nat) :
  map f (seq (k + a) len) = map (fun i => f (k + i)%nat) (seq a len).
Proof.
  revert a. induction len as [|len IH]; intros a; [reflexivity|].
  simpl. f_equal. rewrite <- IH. f_equal. f_equal. lia.
Qed.

Lemma bytes_of_app m d a b c1 c2 c3 :
  0 <= a -> 0 <= b ->
  bytes_of m (mkSlice d (a + b) c1) =
  bytes_of m (mkSlice d a c2) ++ bytes_of m (mkSlice (d + a) b c3).
Proof.
  intros Ha Hb. unfold bytes_of. cbn [Data Len].
  rewrite Z2Nat.inj_add, seq_app, map_app by lia. f_equal.
  replace (0 + Z.to_nat a)%nat with (Z.to_nat a + 0)%nat by lia.
  rewrite (map_seq_shift _ (Z.to_nat a) 0).
  apply map_ext. intros i. f_equal. lia.
Qed.

Section ReadFromProofs.

Context {R : Type} {reader : io_Reader R}.
Hypothesis source_ok : io_contract.

Variable bb : Buffer.
Variable old : list byte.

Lemma ReadFrom_grow_spec acc (v : loop_vars R) :
  ReadFrom_inv (Buffer_Len bb) old acc v ->
  (lv_n v = lv_bCap v /\ lv_n v = MaxInt32 /\
   ReadFrom_grow bb v =
     Ret (inr (MaxInt32, Some ErrTooLarge, mkReadState bb (lv_world v) (lv_src v)))) \/
  (exists v1,
     ReadFrom_grow bb v = Ret (inl v1) /\
     ReadFrom_inv (Buffer_Len bb) old acc v1 /\
     lv_n v1 = lv_n v /\ lv_src v1 = lv_src v /\
     (lv_n v <> lv_bCap v -> v1 = v) /\
     (lv_n v = lv_bCap v ->
      lv_bCap v1 = Z.min (2 * lv_bCap v) MaxInt32 /\
      exists h1 p1,
        New (hp (lv_world v)) (bs (lv_world v)) (lv_bCap v1) (hd None (lv_picks v)) =
        Ret (lv_p v1, h1, p1))).
Proof.
  intros Hinv. pose proof Hinv as [Hwf [Hheap [HLen [HCap [Hn [Hceil [Hcount Hbytes]]]]]]].
  unfold ReadFrom_grow.
  destruct (Z.eqb_spec (lv_n v) (lv_bCap v)) as [Hfull|Hroom].
  2:{ right. exists v. split; [reflexivity|]. split; [exact Hinv|].
      split; [reflexivity|]. split; [reflexivity|].
      split; [reflexivity|intros; contradiction]. }
  destruct (Z.eqb_spec (lv_n v) MaxInt32) as [Hmax|Hmax].
  { left. split; [exact Hfull|]. split; [exact Hmax|]. rewrite Hmax. reflexivity. }
  right.
  rewrite wrap_id by (unfold in_int, min_int, max_int, MaxInt32 in *; lia).
  set (cap' := if MaxInt32 <? lv_bCap v * 2 then MaxInt32 else lv_bCap v * 2).
  assert (Hcap' : cap' = Z.min (2 * lv_bCap v) MaxInt32).
  { unfold cap'. destruct (Z.ltb_spec MaxInt32 (lv_bCap v * 2)); lia. }
  destruct v as [[h p] bCap n sl r picks]. cbn [lv_world lv_bCap lv_n lv_p lv_src lv_picks hp bs] in *.
  destruct (New_wf h p cap' (hd None picks) Hwf)
    as [pNew [h1 [p1 [HN [HL [HC [Hin [Hwf1 [Hbrk Hlow]]]]]]]]]; [lia|].
  rewrite HN. cbn [bind]. unfold copy.
  destruct Hheap as [Hd0 Hd1].
  destruct (Release_wf (mkHeap (memmove (mem h1) (Data pNew) (Data sl)
                                  (Z.min (Len pNew) (Len sl))) (brk h1)) p1 sl)
    as [ok [p2 [HR Hwf2]]].
  { destruct h1. exact Hwf1. }
  { unfold slice_wf. lia. }
  { unfold in_heap. cbn [brk]. lia. }
  rewrite HR. cbn [bind].
  eexists. split; [reflexivity|].
  cbn [lv_world lv_bCap lv_n lv_p lv_src lv_picks].
  split; [|split; [reflexivity|split; [reflexivity|split; [intros; contradiction|]]]].
  - unfold ReadFrom_inv. cbn [lv_world lv_bCap lv_n lv_p lv_src hp bs mem brk].
    split; [exact Hwf2|]. split; [destruct Hin; split; cbn [brk]; lia|].
    split; [exact HL|]. split; [lia|]. split; [lia|]. split; [lia|].
    split; [exact Hcount|].
    rewrite <- Hbytes. apply bytes_of_ext; [reflexivity|].
    cbn [Data Len]. intros i Hi.
    rewrite memmove_inside by lia. apply Hlow. lia.
  - intros _. split; [exact Hcap'|]. now exists h1, p1.
Qed.

Lemma ReadFrom_read_spec acc (v : loop_vars R) :
  0 <= (Buffer_Len bb) ->
  ReadFrom_inv (Buffer_Len bb) old acc v ->
  exists sub nn err m' r',
    slice_from (lv_p v) (lv_n v) = Ret sub /\
    io_Read (lv_src v) (mem (hp (lv_world v))) sub = (nn, err, m', r') /\
    chunk_read v = bytes_of m' (mkSlice (Data sub) nn nn) /\
    match err with
    | None =>
        exists v2,
          ReadFrom_read bb (Buffer_Len bb) v = Ret (inl v2) /\
          ReadFrom_inv (Buffer_Len bb) old (acc ++ chunk_read v) v2 /\
          lv_src v2 = r'
    | Some e =>
        exists st,
          ReadFrom_read bb (Buffer_Len bb) v =
            Ret (inr (Z.of_nat (length (acc ++ chunk_read v)),
                      match e with EOF => None | _ => Some e end, st)) /\
          bytes_of (mem (hp (rs_world st))) (B (rs_bb st)) = old ++ acc ++ chunk_read v /\
          Buffer_Len (rs_bb st) = (Buffer_Len bb) + Z.of_nat (length (acc ++ chunk_read v)) /\
          c (rs_bb st) = c bb /\ rs_src st = r'
    end.
Proof.
  intros HbLen [Hwf [Hheap [HLen [HCap [Hn [Hceil [Hcount Hbytes]]]]]]].
  unfold ReadFrom_read, chunk_read.
  unfold slice_from.
  destruct (Z.ltb_spec (lv_n v) 0); [lia|].
  destruct (Z.ltb_spec (Len (lv_p v)) (lv_n v)); [lia|]. cbn [orb bind].
  set (sub := mkSlice (Data (lv_p v) + lv_n v) (Len (lv_p v) - lv_n v)
                (Cap (lv_p v) - lv_n v)).
  destruct (io_Read (lv_src v) (mem (hp (lv_world v))) sub) as [[[nn err] m'] r'] eqn:E.
  destruct (source_ok _ _ _ _ _ _ _ E) as [Hnn Hframe]; [cbn [Len sub]; lia|].
  cbn [Len Data sub] in Hnn, Hframe.
  exists sub, nn, err, m', r'. split; [reflexivity|]. split; [exact E|].
  split; [reflexivity|].
  assert (Hlenchunk : length (bytes_of m' (mkSlice (Data sub) nn nn)) = Z.to_nat nn)
    by (rewrite bytes_of_length; reflexivity).
  assert (Hnew : bytes_of m' (mkSlice (Data (lv_p v)) (lv_n v + nn) (Cap (lv_p v))) =
                 old ++ acc ++ bytes_of m' (mkSlice (Data sub) nn nn)).
  { rewrite (bytes_of_app m' _ _ _ _ (Cap (lv_p v)) nn) by lia.
    rewrite app_assoc. f_equal. rewrite <- Hbytes.
    apply bytes_of_ext; [reflexivity|]. cbn [Data Len]. intros i Hi.
    apply Hframe. lia. }
  rewrite wrap_id by (unfold in_int, min_int, max_int, MaxInt32 in *; lia).
  destruct err as [e|].
  - unfold reslice.
    destruct (Z.ltb_spec (lv_n v + nn) 0); [lia|].
    destruct (Z.ltb_spec (Cap (lv_p v)) (lv_n v + nn)); [lia|]. cbn [orb bind].
    rewrite wrap_id by (unfold in_int, min_int, max_int, MaxInt32 in *; lia).
    assert (Hcnt : lv_n v + nn - (Buffer_Len bb) =
                   Z.of_nat (length (acc ++ bytes_of m' (mkSlice (Data sub) nn nn))))
      by (rewrite length_app, Hlenchunk; lia).
    rewrite Hcnt.
    eexists. split; [destruct e; reflexivity|].
    cbn [rs_world rs_bb rs_src hp mem B c]. split; [exact Hnew|].
    split; [|split; reflexivity].
    unfold Buffer_Len at 1. cbn [B Len]. rewrite <- Hcnt. lia.
  - eexists. split; [reflexivity|]. split; [|reflexivity].
    unfold ReadFrom_inv. cbn [lv_world lv_bCap lv_n lv_p hp bs mem brk].
    split; [destruct (lv_world v) as [[? ?] ?]; exact Hwf|].
    split; [exact Hheap|]. split; [exact HLen|]. split; [exact HCap|].
    split; [lia|]. split; [exact Hceil|].
    split; [rewrite length_app, Hlenchunk; lia|].
    exact Hnew.
Qed.

Hypothesis bLen_nonneg : 0 <= Buffer_Len bb.



End ReadFromProofs.

Lemma ReadFrom_start_inv {R : Type} (picks : list (option nat)) (w : world)
    (bb : Buffer) (r : R) :
  world_wf w -> slice_wf (B bb) -> in_heap (hp w) (B bb) -> Buffer_Cap bb <= MaxInt32 ->
  ReadFrom_inv (Buffer_Len bb) (bytes_of (mem (hp w)) (B bb)) []
    (ReadFrom_start picks w bb r).
Proof.
  intros Hwf [Hl0 Hlc] [Hd0 Hd1] Hcap.
  unfold ReadFrom_inv, ReadFrom_start, Buffer_Len, Buffer_Cap in *.
  cbn [lv_world lv_bCap lv_n lv_p Len Cap Data].
  split; [exact Hwf|]. split; [split; assumption|].
  split; [reflexivity|]. split; [lia|]. split; [lia|]. split; [exact Hcap|].
  split; [simpl; lia|]. rewrite app_nil_r.
  apply bytes_of_ext; reflexivity.
Qed.

Lemma ReadFrom_unfold {R : Type} {reader : io_Reader R} fuel picks w bb (r : R) :
  0 <= Buffer_Cap bb ->
  ReadFrom fuel picks w bb r =
  ReadFrom_loop fuel bb (Buffer_Len bb) (ReadFrom_start picks w bb r).
Proof.
  intros Hcap. unfold ReadFrom, reslice, Buffer_Cap in *.
  destruct (Z.ltb_spec (Cap (B bb)) 0); [lia|].
  rewrite Z.ltb_irrefl. reflexivity.
Qed.



(** *** The worked examples *)

Lemma small_world_wf : world_wf small_world.
Proof.
  split; [exact pool_2_8_configured_upto|]. split; [vm_compute; discriminate|].
  intros i ptr _ Hin. exfalso. unfold class_at in Hin. cbn [bs small_world pool_2_8 pools] in Hin.
  destruct (Z.to_nat i) as [|[|[|[|n]]]]; exact Hin.
Qed.

Lemma small_buffer_wf : slice_wf (B small_buffer) /\ in_heap (hp small_world) (B small_buffer).
Proof. vm_compute. repeat split; discriminate. Qed.


Lemma Guarantee_Grow_within_ceiling_witness :
  exists bb' w',
    Guarantee growslice_exact small_world None small_buffer 5 = Ret (bb', w') /\
    7 <= Buffer_Cap bb' /\ Buffer_Len bb' = 2 /\ in_heap (hp w') (B bb').
Proof.
  destruct small_buffer_wf as [Hw Hh].
  destruct (Guarantee_Grow_within_ceiling growslice_exact small_world None small_buffer 5)
    as [[bb' [w' [HG [Hc [Hl [_ [_ [Hin _]]]]]]]] _].
  - exact small_world_wf.
  - exact Hw.
  - exact Hh.
  - lia.
  - vm_compute. discriminate.
  - exists bb', w'. split; [exact HG|]. split; [exact Hc|]. split; [exact Hl|exact Hin].
Defined.


(** * Further properties *)

(** ** The pool *)

Import bytespool_api.

Lemma getPool_in_range p size i :
  getPool p size = Ret (Some i) -> 0 <= i < Z.of_nat (length (pools p)).
Proof.
  unfold getPool, pools_at. intros H.
  repeat match type of H with
         | context [if ?b then _ else _] => destruct b eqn:?
         end;
    cbn [bind] in H; try discriminate; injection H as <-;
    match goal with
    | Hb : (_ <=? _) && (_ <? _) = true |- _ =>
        apply andb_prop in Hb as [Hb1 Hb2];
        apply Z.leb_le in Hb1; apply Z.ltb_lt in Hb2; split; assumption
    end.
Qed.

Lemma getPool_same_classes p q size :
  same_classes p q -> getPool p size = getPool q size.
Proof.
  intros Hs. pose proof (same_classes_length p q Hs) as Hl.
  destruct Hs as [Hmin [Hmax [Hidx _]]].
  unfold getPool, pools_at. now rewrite Hmin, Hmax, Hidx, Hl.
Qed.

Lemma documented_class_same_classes p q size :
  same_classes p q -> documented_class p size = documented_class q size.
Proof.
  intros [Hmin [Hmax [Hidx _]]]. unfold documented_class.
  now rewrite Hmin, Hmax, Hidx.
Qed.

Lemma same_classes_sym p q : same_classes p q -> same_classes q p.
Proof. intros [H1 [H2 [H3 H4]]]. repeat split; congruence. Qed.

Lemma same_classes_trans p q r :
  same_classes p q -> same_classes q r -> same_classes p r.
Proof. intros [H1 [H2 [H3 H4]]] [G1 [G2 [G3 G4]]]. repeat split; congruence. Qed.

Lemma New_same_classes h p size pick buf h' p' :
  New h p size pick = Ret (buf, h', p') -> same_classes p' p.
Proof.
  unfold New. intros H.
  destruct (getPool p size) as [[i|]|] eqn:Hg; cbn [bind] in H; [| |discriminate].
  - apply getPool_in_range in Hg.
    destruct (Pool_Get (pool (class_at p i)) pick) as [[ptr|] store'].
    + injection H as <- <- <-. apply set_class_same_classes; [exact Hg|reflexivity].
    + destruct (Pool_New h (class_at p i)) as [[b1 h1]|]; cbn [bind] in H; [|discriminate].
      destruct (make h1 size (capacity (class_at p i))) as [[b2 h2]|];
        cbn [bind] in H; [|discriminate].
      injection H as <- <- <-. apply same_classes_refl.
  - destruct (make h size size) as [[b2 h2]|]; cbn [bind] in H; [|discriminate].
    injection H as <- <- <-. apply same_classes_refl.
Qed.

Lemma Release_same_classes p b ok p' :
  Release p b = Ret (ok, p') -> same_classes p' p.
Proof.
  unfold Release. intros H.
  destruct ((Cap b =? 0) || (maxSize p <? Cap b)).
  { injection H as <- <-. apply same_classes_refl. }
  destruct (getPool p (Cap b)) as [[i|]|] eqn:Hg; cbn [bind] in H; [| |discriminate].
  - apply getPool_in_range in Hg.
    destruct (negb (Cap b =? capacity (class_at p i))).
    + injection H as <- <-. apply same_classes_refl.
    + destruct (reslice b 1) as [b1|]; cbn [bind] in H; [|discriminate].
      injection H as <- <-. apply set_class_same_classes; [exact Hg|reflexivity].
  - injection H as <- <-. apply same_classes_refl.
Qed.

Lemma Make_same_classes h p size pick buf h' p' :
  Make h p size pick = Ret (buf, h', p') -> same_classes p' p.
Proof.
  unfold Make. intros H.
  destruct (New h p size pick) as [[[b1 h1] p1]|] eqn:HN; cbn [bind] in H; [|discriminate].
  destruct (reslice b1 0); cbn [bind] in H; [|discriminate].
  injection H as <- <- <-. exact (New_same_classes _ _ _ _ _ _ _ HN).
Qed.

(** X2: whatever the pool and the request, [New], [Make] and [Release]
    leave the bounds, the last index and the capacity of every class as
    they are: only what the classes store changes. *)
Theorem pool_operations_keep_classes :
  (forall h p size pick buf h' p',
     New h p size pick = Ret (buf, h', p') -> same_classes p' p) /\
  (forall h p size pick buf h' p',
     Make h p size pick = Ret (buf, h', p') -> same_classes p' p) /\
  (forall p b ok p', Release p b = Ret (ok, p') -> same_classes p' p).
Proof.
  split; [exact New_same_classes|]. split; [exact Make_same_classes|].
  exact Release_same_classes.
Qed.

Lemma Release_true_inv p b p1 :
  Release p b = Ret (true, p1) ->
  exists i,
    getPool p (Cap b) = Ret (Some i) /\
    Cap b = capacity (class_at p i) /\
    Cap b <> 0 /\ Cap b <= maxSize p /\
    p1 = set_class p i (mkBytesPool (capacity (class_at p i))
                          (Data b :: pool (class_at p i))).
Proof.
  unfold Release. intros H.
  destruct (Z.eqb_spec (Cap b) 0); cbn [orb] in H; [discriminate|].
  destruct (Z.ltb_spec (maxSize p) (Cap b)); [discriminate|].
  destruct (getPool p (Cap b)) as [[i|]|] eqn:Hg; cbn [bind] in H; try discriminate.
  destruct (Z.eqb_spec (Cap b) (capacity (class_at p i))); cbn [negb] in H;
    [|discriminate].
  destruct (reslice b 1) as [b1|] eqn:Hr; cbn [bind] in H; [|discriminate].
  unfold reslice in Hr. destruct ((1 <? 0) || (Cap b <? 1)); [discriminate|].
  injection Hr as <-. cbn [Data] in H. injection H as <-.
  exists i. repeat split; auto; lia.
Qed.

Lemma firstn_nth_skipn {A} (l : list A) (i : nat) (d : A) :
  (i < length l)%nat -> firstn i l ++ nth i l d :: skipn (S i) l = l.
Proof.
  revert i. induction l as [|x l IH]; intros i Hi; simpl in Hi; [lia|].
  destruct i as [|i]; [reflexivity|]. simpl. f_equal. apply IH. lia.
Qed.

Lemma replace_twice {A} (l : list A) (i : nat) (a b : A) :
  (i < length l)%nat ->
  firstn i (firstn i l ++ a :: skipn (S i) l) ++
    b :: skipn (S i) (firstn i l ++ a :: skipn (S i) l) =
  firstn i l ++ b :: skipn (S i) l.
Proof.
  revert i. induction l as [|x l IH]; intros i Hi; simpl in Hi; [lia|].
  destruct i as [|i]; [reflexivity|]. simpl. f_equal. apply IH. lia.
Qed.

Lemma set_class_twice p i a b :
  0 <= i < Z.of_nat (length (pools p)) ->
  set_class (set_class p i a) i b = set_class p i b.
Proof.
  intros Hi. unfold set_class. cbn [minSize maxSize maxIndex pools].
  f_equal. apply replace_twice. lia.
Qed.

Lemma set_class_class_at p i :
  0 <= i < Z.of_nat (length (pools p)) -> set_class p i (class_at p i) = p.
Proof.
  intros Hi. destruct p as [mn mx idx l]. unfold set_class, class_at.
  cbn [minSize maxSize maxIndex pools] in *. f_equal.
  apply firstn_nth_skipn. lia.
Qed.

Lemma Release_New_roundtrip (h : heap) (p p1 : CapacityPools)
    (b : slice) (size : Z) :
  Release p b = Ret (true, p1) ->
  getPool p size = getPool p (Cap b) ->
  New h p1 size (Some 0%nat) = Ret (mkSlice (Data b) size (Cap b), h, p).
Proof.
  intros HR Hsel.
  pose proof (Release_same_classes _ _ _ _ HR) as Hsame.
  destruct (Release_true_inv p b p1 HR) as [i [Hg [Hcap [_ [_ ->]]]]].
  pose proof (getPool_in_range _ _ _ Hg) as Hi.
  unfold New. rewrite (getPool_same_classes _ p size Hsame), Hsel, Hg. cbn [bind].
  rewrite class_at_set_class by exact Hi. cbn [pool capacity Pool_Get nth_error].
  cbn [firstn skipn app]. rewrite set_class_twice by exact Hi.
  rewrite <- Hcap. f_equal. f_equal.
  rewrite Hcap. 
  replace (mkBytesPool (capacity (class_at p i)) (pool (class_at p i)))
    with (class_at p i) by (destruct (class_at p i); reflexivity).
  now apply set_class_class_at.
Qed.

(** X1: a block that [Release] has accepted comes back from the next
    [New] that selects the same class and is served the stored pointer put
    last: the same backing array, with the requested length and the class's
    capacity, the memory not touched, and the pool exactly as it was before
    the [Release]. *)
Theorem Release_then_New_gives_block_back (h : heap) (p p1 : CapacityPools)
    (b : slice) (size : Z) :
  Release p b = Ret (true, p1) ->
  getPool p size = getPool p (Cap b) ->
  New h p1 size (Some 0%nat) = Ret (mkSlice (Data b) size (Cap b), h, p).
Proof. exact (Release_New_roundtrip h p p1 b size). Qed.

Lemma Release_then_New_gives_block_back_witness :
  exists p1,
    Release pool_2_8 (mkSlice 100 3 4) = Ret (true, p1) /\
    New empty_heap p1 4 (Some 0%nat) = Ret (mkSlice 100 4 4, empty_heap, pool_2_8) /\
    New empty_heap p1 3 (Some 0%nat) = Ret (mkSlice 100 3 4, empty_heap, pool_2_8).
Proof.
  eexists. split; [vm_compute; reflexivity|]. split.
  - apply (Release_then_New_gives_block_back empty_heap pool_2_8 _ (mkSlice 100 3 4) 4);
      vm_compute; reflexivity.
  - apply (Release_then_New_gives_block_back empty_heap pool_2_8 _ (mkSlice 100 3 4) 3);
      vm_compute; reflexivity.
Defined.

Lemma pool_operations_keep_classes_witness :
  exists p1, Release pool_2_8 (mkSlice 100 3 4) = Ret (true, p1) /\
             same_classes p1 pool_2_8.
Proof.
  destruct pool_operations_keep_classes as [_ [_ H]].
  eexists. split; [vm_compute; reflexivity|].
  apply (H pool_2_8 (mkSlice 100 3 4) true). vm_compute. reflexivity.
Defined.

Lemma pow2_ge_2 i : 1 <= i -> 2 <= 2 ^ i.
Proof.
  intros Hi. change 2 with (2 ^ 1) at 1. apply Z.pow_le_mono_r; lia.
Qed.

Lemma ceil_log2_ratio_pow2 lo i :
  0 < lo -> 1 <= i -> ceil_log2_ratio (lo * 2 ^ i) lo = i.
Proof.
  intros Hlo Hi.
  pose proof (ceil_log2_ratio_lt lo (lo * 2 ^ i) i Hlo ltac:(lia)) as Hup.
  pose proof (ceil_log2_ratio_lt lo (lo * 2 ^ i) (i - 1) Hlo ltac:(lia)) as Hdown.
  assert (2 ^ (i - 1) < 2 ^ i) by (apply Z.pow_lt_mono_r; lia).
  assert (lo * 2 ^ (i - 1) < lo * 2 ^ i) by nia.
  lia.
Qed.

(** On a pool whose doubling stayed inside [int], the class selected for
    the capacity of a class is that class. *)
Lemma documented_class_of_capacity p i :
  configured_upto (2 ^ 62) p -> 0 <= i <= maxIndex p ->
  documented_class p (capacity (class_at p i)) = i /\
  2 <= capacity (class_at p i) <= maxSize p.
Proof.
  intros Hu Hi. pose proof Hu as [Hc _].
  destruct (configured_shape p Hc) as [Hb _].
  destruct (configured_upto_classes p Hu) as [k [Hk [Hcaps Hidx]]].
  rewrite class_at_capacity, Hcaps. unfold documented_class.
  destruct (Z_lt_le_dec i (Z.of_nat k)) as [Hlt|Hge].
  - rewrite class_capacities_nth_lt by lia. rewrite Z2Nat.id by lia.
    assert (Hbelow : minSize p * 2 ^ i < maxSize p)
      by (rewrite <- (Z2Nat.id i) by lia; apply Hk; lia).
    assert (0 < 2 ^ i) by (apply Z.pow_pos_nonneg; lia).
    split; [|nia].
    destruct (Z.eq_dec i 0) as [->|Hne].
    + rewrite Z.pow_0_r, Z.mul_1_r.
      destruct (Z.leb_spec (minSize p) (minSize p)); [reflexivity|lia].
    + pose proof (pow2_ge_2 i ltac:(lia)).
      destruct (Z.leb_spec (minSize p * 2 ^ i) (minSize p)); [nia|].
      destruct (Z.eqb_spec (minSize p * 2 ^ i) (maxSize p)); [lia|].
      rewrite ceil_log2_ratio_pow2 by lia. lia.
  - replace (Z.to_nat i) with k by lia. rewrite class_capacities_nth_last.
    split; [|lia].
    destruct (Z.leb_spec (maxSize p) (minSize p)).
    + assert (~ (0 < k)%nat); [|lia].
      rewrite <- Hk. change (Z.of_nat 0) with 0. rewrite Z.pow_0_r. lia.
    + rewrite Z.eqb_refl. lia.
Qed.

(** X3: on a pool configured with [maxSize <= 2^62], a block that [New]
    returns for a request within [0 .. maxSize] that is at most [minSize],
    equal to [maxSize], or at most [2^31 - 1], is always accepted back:
    [Release] of it returns [true] and stores its pointer in the class it
    came from. *)
Theorem New_then_Release_accepted (h : heap) (p : CapacityPools) (size : Z)
    (pick : option nat) :
  configured_upto (2 ^ 62) p -> 0 <= size <= maxSize p -> exact_request p size ->
  exists buf h' p1 p2,
    New h p size pick = Ret (buf, h', p1) /\
    Release p1 buf = Ret (true, p2) /\
    pool (class_at p2 (documented_class p size)) =
      Data buf :: pool (class_at p1 (documented_class p size)).
Proof.
  intros Hu Hs _.
  destruct (New_within h p size pick Hu Hs)
    as [buf [h' [p1 [HN [HL [HC [Hge [Hsame _]]]]]]]].
  destruct (documented_class_fits p size Hu (proj2 Hs)) as [_ [Hrange _]].
  destruct (documented_class_of_capacity p _ Hu Hrange) as [Hsel Hbounds].
  assert (Hu1 : configured_upto (2 ^ 62) p1)
    by (apply (configured_upto_same_classes _ p1 p); assumption).
  assert (Hw : slice_wf buf) by (unfold slice_wf; lia).
  destruct (Release_spec p1 buf (proj1 Hu1) Hw) as [ok [p2 [HR [Hiff [Ht _]]]]].
  assert (Hd : documented_class p1 (Cap buf) = documented_class p size)
    by (rewrite (documented_class_same_classes p1 p _ Hsame), HC; exact Hsel).
  assert (Hok : ok = true).
  { apply Hiff. rewrite Hd, (same_classes_capacity p1 p _ Hsame).
    destruct Hsame as [_ [Hmax _]]. rewrite Hmax, HC. lia. }
  subst ok. destruct (Ht eq_refl) as [_ [Hpool _]]. cbv zeta in Hpool.
  rewrite Hd in Hpool. now exists buf, h', p1, p2.
Qed.

Lemma New_then_Release_accepted_witness :
  exists buf h' p1 p2,
    New empty_heap pool_2_8 3 None = Ret (buf, h', p1) /\
    Release p1 buf = Ret (true, p2) /\
    pool (class_at p2 1) = [Data buf].
Proof.
  destruct (New_then_Release_accepted empty_heap pool_2_8 3 None pool_2_8_configured_upto)
    as [buf [h' [p1 [p2 [HN [HR Hp]]]]]].
  - vm_compute. split; discriminate.
  - right. right. vm_compute. discriminate.
  - exists buf, h', p1, p2. split; [exact HN|]. split; [exact HR|].
    vm_compute in HN. injection HN as <- <- <-. exact Hp.
Defined.

(** X4: on a pool configured with [maxSize <= 2^62], [Release] accepts a
    block exactly when its capacity is the capacity of one of the
    classes. *)
Theorem Release_accepts_class_capacities (p : CapacityPools) (b : slice) :
  configured_upto (2 ^ 62) p -> slice_wf b ->
  exists ok p',
    Release p b = Ret (ok, p') /\
    (ok = true <-> In (Cap b) (map capacity (pools p))).
Proof.
  intros Hu Hw. pose proof Hu as [Hc _].
  destruct (configured_shape p Hc) as [_ [Hidx [Hlen _]]].
  destruct (Release_spec p b Hc Hw) as [ok [p' [HR [Hiff _]]]].
  exists ok, p'. split; [exact HR|]. rewrite Hiff. split.
  - intros [_ [Hle Hcap]].
    destruct (getPool_documented p (Cap b) Hc Hle) as [Hrange _].
    rewrite class_at_capacity in Hcap. rewrite <- Hcap.
    apply nth_In. rewrite length_map. lia.
  - intros Hin. apply (In_nth _ _ 0) in Hin as [n [Hn Hnth]].
    rewrite length_map in Hn.
    destruct (documented_class_of_capacity p (Z.of_nat n) Hu ltac:(lia)) as [Hsel Hb].
    rewrite class_at_capacity, Nat2Z.id, Hnth in Hsel, Hb.
    rewrite Hsel, class_at_capacity, Nat2Z.id. split; [lia|]. split; [lia|exact Hnth].
Qed.

Lemma Release_accepts_class_capacities_witness :
  (exists p', Release pool_2_8 (mkSlice 0 0 8) = Ret (true, p')) /\
  (exists p', Release pool_2_8 (mkSlice 0 0 6) = Ret (false, p')).
Proof.
  split.
  - destruct (Release_accepts_class_capacities pool_2_8 (mkSlice 0 0 8)
                pool_2_8_configured_upto) as [ok [p' [HR Hiff]]].
    + unfold slice_wf. simpl. lia.
    + exists p'. rewrite HR. f_equal. f_equal. apply Hiff.
      simpl. right. right. left. reflexivity.
  - destruct (Release_accepts_class_capacities pool_2_8 (mkSlice 0 0 6)
                pool_2_8_configured_upto) as [ok [p' [HR Hiff]]].
    + unfold slice_wf. simpl. lia.
    + exists p'. rewrite HR. f_equal. f_equal.
      destruct ok; [|reflexivity]. exfalso.
      destruct (proj1 Hiff eq_refl) as [H|[H|[H|H]]]; try discriminate H. exact H.
Defined.

Lemma class_capacity_below_twice p size :
  configured_upto (2 ^ 62) p -> minSize p < size <= maxSize p ->
  capacity (class_at p (documented_class p size)) < 2 * size.
Proof.
  intros Hu [Hlo Hhi]. pose proof Hu as [Hc _].
  destruct (configured_shape p Hc) as [Hb [_ [_ [_ Hterm]]]].
  destruct (configured_upto_classes p Hu) as [k [Hk [Hcaps Hidx]]].
  unfold documented_class.
  destruct (Z.leb_spec size (minSize p)); [lia|].
  destruct (Z.eqb_spec size (maxSize p)); [rewrite Hterm; lia|].
  pose proof (ceil_log2_ratio_nonneg size (minSize p)) as Hnn.
  set (j := ceil_log2_ratio size (minSize p)) in *.
  assert (Hj1 : 1 <= j).
  { assert (0 < j); [|lia]. apply (ceil_log2_ratio_lt (minSize p) size 0); lia. }
  assert (Hjk : j <= Z.of_nat k).
  { destruct (Z_lt_le_dec (Z.of_nat k) j) as [Hlt|]; [|assumption].
    apply (ceil_log2_ratio_lt (minSize p) size (Z.of_nat k)) in Hlt; [|lia|lia].
    assert (~ minSize p * 2 ^ Z.of_nat k < maxSize p) by (rewrite Hk; lia). lia. }
  assert (Hdown : minSize p * 2 ^ (j - 1) < size)
    by (apply (ceil_log2_ratio_lt (minSize p) size (j - 1)); lia).
  assert (Hpow : 2 ^ j = 2 * 2 ^ (j - 1))
    by (rewrite <- Z.pow_succ_r by lia; f_equal; lia).
  replace (Z.max 0 (Z.min j (maxIndex p))) with j by lia.
  rewrite class_at_capacity, Hcaps.
  destruct (Z_lt_le_dec j (Z.of_nat k)) as [Hlt|Hge].
  - rewrite class_capacities_nth_lt by lia. rewrite Z2Nat.id by lia. nia.
  - replace (Z.to_nat j) with k by lia. rewrite class_capacities_nth_last.
    assert (~ minSize p * 2 ^ Z.of_nat k < maxSize p) by (rewrite Hk; lia).
    replace (Z.of_nat k) with j in * by lia. nia.
Qed.

(** X5: on a pool configured with [maxSize <= 2^62], the block [New]
    returns for a request up to [minSize] has capacity [minSize], and for a
    request above [minSize] that is [maxSize] or at most
    [min maxSize (2^31 - 1)] it has a capacity of at least the request and
    below twice the request. *)
Theorem New_capacity_below_twice (h : heap) (p : CapacityPools) (size : Z)
    (pick : option nat) :
  configured_upto (2 ^ 62) p -> 0 <= size <= maxSize p -> exact_request p size ->
  exists buf h' p',
    New h p size pick = Ret (buf, h', p') /\
    size <= Cap buf /\
    (size <= minSize p -> Cap buf = minSize p) /\
    (minSize p < size -> Cap buf < 2 * size).
Proof.
  intros Hu Hs _. pose proof Hu as [Hc _].
  destruct (configured_shape p Hc) as [_ [_ [_ [Hfirst _]]]].
  destruct (New_within h p size pick Hu Hs) as [buf [h' [p' [HN [_ [HC [Hge _]]]]]]].
  exists buf, h', p'. split; [exact HN|]. split; [exact Hge|]. rewrite HC. split.
  - intros Hle. unfold documented_class.
    destruct (Z.leb_spec size (minSize p)); [exact Hfirst|lia].
  - intros Hgt. apply class_capacity_below_twice; [exact Hu|lia].
Qed.

Lemma New_capacity_below_twice_witness :
  exists buf h' p',
    New empty_heap pool_2_8 5 None = Ret (buf, h', p') /\ 5 <= Cap buf < 10.
Proof.
  destruct (New_capacity_below_twice empty_heap pool_2_8 5 None pool_2_8_configured_upto)
    as [buf [h' [p' [HN [Hge [_ Hlt]]]]]].
  - vm_compute. split; discriminate.
  - right. right. vm_compute. discriminate.
  - exists buf, h', p'. split; [exact HN|]. split; [exact Hge|].
    apply Hlt. vm_compute. reflexivity.
Defined.

(** [New] for a request that selects a class of exactly the requested
    capacity. *)
Lemma New_whole_class h p size pick i :
  getPool p size = Ret (Some i) -> capacity (class_at p i) = size -> 0 <= size ->
  exists buf h' p',
    New h p size pick = Ret (buf, h', p') /\ Len buf = size /\ Cap buf = size.
Proof.
  intros Hg Hcap Hs. unfold New. rewrite Hg. cbn [bind].
  destruct (Pool_Get_cases (pool (class_at p i)) pick) as [E|[k [ptr [_ [_ E]]]]]; rewrite E.
  - unfold Pool_New. rewrite Hcap.
    destruct (make_spec h size size) as [m1 [E1 _]]; [lia|]. rewrite E1. cbn [bind].
    destruct (make_spec (mkHeap m1 (brk h + size)) size size) as [m2 [E2 _]]; [lia|].
    rewrite E2. cbn [bind]. eexists _, _, _. split; [reflexivity|]. split; reflexivity.
  - rewrite Hcap. eexists _, _, _. split; [reflexivity|]. split; reflexivity.
Qed.

Lemma getPool_bounds p :
  configured p ->
  (exists i, getPool p (minSize p) = Ret (Some i) /\ capacity (class_at p i) = minSize p) /\
  (exists i, getPool p (maxSize p) = Ret (Some i) /\ capacity (class_at p i) = maxSize p).
Proof.
  intros Hc. destruct (configured_shape p Hc) as [Hb [Hidx [Hlen [Hfirst Hterm]]]].
  unfold getPool. split.
  - destruct (Z.leb_spec (minSize p) (minSize p)); [|lia].
    rewrite pools_at_ok by lia. exists 0. split; [reflexivity|exact Hfirst].
  - destruct (Z.leb_spec (maxSize p) (minSize p)).
    + rewrite pools_at_ok by lia. exists 0. split; [reflexivity|]. rewrite Hfirst. lia.
    + rewrite Z.eqb_refl, pools_at_ok by lia.
      exists (maxIndex p). split; [reflexivity|exact Hterm].
Qed.

(** X6: on every configured pool, [NewMax] and [NewMin] return a block whose
    length and capacity are both [maxSize], respectively [minSize], and
    [MakeMax] and [MakeMin] return an empty block of that capacity. *)
Theorem bound_blocks (h : heap) (p : CapacityPools) (pick : option nat) :
  configured p ->
  (exists buf h' p', NewMax h p pick = Ret (buf, h', p') /\
                     Len buf = maxSize p /\ Cap buf = maxSize p) /\
  (exists buf h' p', NewMin h p pick = Ret (buf, h', p') /\
                     Len buf = minSize p /\ Cap buf = minSize p) /\
  (exists buf h' p', MakeMax h p pick = Ret (buf, h', p') /\
                     Len buf = 0 /\ Cap buf = maxSize p) /\
  (exists buf h' p', MakeMin h p pick = Ret (buf, h', p') /\
                     Len buf = 0 /\ Cap buf = minSize p).
Proof.
  intros Hc. destruct (configured_shape p Hc) as [Hb _].
  destruct (getPool_bounds p Hc) as [[i [Hgi Hci]] [j [Hgj Hcj]]].
  destruct (New_whole_class h p (maxSize p) pick j Hgj Hcj ltac:(lia))
    as [b1 [h1 [p1 [HN1 [HL1 HC1]]]]].
  destruct (New_whole_class h p (minSize p) pick i Hgi Hci ltac:(lia))
    as [b2 [h2 [p2 [HN2 [HL2 HC2]]]]].
  unfold NewMax, NewMin, MakeMax, MakeMin. rewrite HN1, HN2. cbn [bind].
  unfold reslice. rewrite HC1, HC2.
  destruct (Z.ltb_spec 0 0); [lia|].
  destruct (Z.ltb_spec (maxSize p) 0); [lia|].
  destruct (Z.ltb_spec (minSize p) 0); [lia|]. cbn [orb bind].
  split; [now exists b1, h1, p1|]. split; [now exists b2, h2, p2|].
  split; eexists _, _, _; (split; [reflexivity|split; reflexivity]).
Qed.

Lemma bound_blocks_witness :
  exists buf h' p', MakeMax empty_heap pool_2_8 None = Ret (buf, h', p') /\
                    Len buf = 0 /\ Cap buf = 8.
Proof.
  destruct (bound_blocks empty_heap pool_2_8 None pool_2_8_configured)
    as [_ [_ [H _]]].
  exact H.
Defined.

(** X7: on a pool configured with [maxSize <= 2^62], a [New] within
    [0 .. maxSize], for a request that is at most [minSize], equal to
    [maxSize], or at most [2^31 - 1], that finds nothing stored allocates
    two fresh zeroed
    arrays of the class's capacity, the first by the [New] closure of the
    class's [sync.Pool] and the second for the block it returns; the pool
    and the memory allocated before are unchanged. *)
Theorem New_miss_allocates_twice (h : heap) (p : CapacityPools) (size : Z) :
  configured_upto (2 ^ 62) p -> 0 <= size <= maxSize p -> exact_request p size ->
  let cap := capacity (class_at p (documented_class p size)) in
  exists m',
    New h p size None =
      Ret (mkSlice (brk h + cap) size cap, mkHeap m' (brk h + 2 * cap), p) /\
    (forall a, brk h <= a < brk h + 2 * cap -> m' a = Byte.x00) /\
    (forall a, a < brk h -> m' a = mem h a).
Proof.
  intros Hu [Hs0 Hs] _ cap.
  destruct (documented_class_fits p size Hu Hs) as [Hg [_ [Hfit Hcap]]].
  fold cap in Hfit, Hcap.
  unfold New. rewrite Hg. cbn [bind Pool_Get]. unfold Pool_New. fold cap.
  destruct (make_spec h cap cap) as [m1 [E1 [Hlow1 [_ Hz1]]]]; [lia|].
  rewrite E1. cbn [bind].
  destruct (make_spec (mkHeap m1 (brk h + cap)) size cap) as [m2 [E2 [Hlow2 [_ Hz2]]]];
    [lia|].
  rewrite E2. cbn [bind brk mem] in *.
  exists m2. replace (brk h + 2 * cap) with (brk h + cap + cap) by lia.
  split; [reflexivity|]. split.
  - intros a Ha. destruct (Z_lt_le_dec a (brk h + cap)).
    + rewrite Hlow2 by lia. apply Hz1. lia.
    + apply Hz2. lia.
  - intros a Ha. rewrite Hlow2 by lia. now apply Hlow1.
Qed.

Lemma New_miss_allocates_twice_witness :
  exists m',
    New empty_heap pool_2_8 3 None = Ret (mkSlice 4 3 4, mkHeap m' 8, pool_2_8) /\
    m' 5 = Byte.x00.
Proof.
  destruct (New_miss_allocates_twice empty_heap pool_2_8 3 pool_2_8_configured_upto)
    as [m' [HN [Hz _]]].
  - vm_compute. split; discriminate.
  - right. right. vm_compute. discriminate.
  - exists m'. split; [exact HN|]. apply Hz. vm_compute.
    split; [discriminate|reflexivity].
Defined.

Lemma New_negative_size h p size :
  configured p -> size < 0 ->
  (exists m1, New h p size None =
              Panic RuntimePanic (mkHeap m1 (brk h + minSize p), p)) /\
  (forall k ptr,
     nth_error (pool (class_at p 0)) k = Some ptr ->
     exists p', New h p size (Some k) = Ret (mkSlice ptr size (minSize p), h, p')).
Proof.
  intros Hc Hs. destruct (configured_shape p Hc) as [Hb [_ [Hlen [Hfirst _]]]].
  assert (Hg : getPool p size = Ret (Some 0)).
  { unfold getPool. destruct (Z.leb_spec size (minSize p)); [|lia].
    now rewrite pools_at_ok by lia. }
  unfold New. rewrite Hg. cbn [bind]. split.
  - cbn [Pool_Get]. unfold Pool_New. rewrite Hfirst.
    destruct (make_spec h (minSize p) (minSize p)) as [m1 [E1 _]]; [lia|].
    rewrite E1. cbn [bind]. unfold make.
    destruct (Z.ltb_spec size 0); [|lia]. cbn [orb bind]. now exists m1.
  - intros k ptr Hnth. unfold Pool_Get. rewrite Hnth, Hfirst. eexists. reflexivity.
Qed.

(** X8: [New64] and [Make64] turn their [uint64] argument into an [int]
    with no check.  Below [2^63] they are [New] and [Make] of the same
    number.  From [2^63] on the number is negative, the smallest class is
    selected, and on every configured pool: when nothing is served from the
    class, [New64] panics; when a stored pointer is served, [New64] returns
    a header of negative length over it and [Make64] an empty block of
    capacity [minSize]. *)
Theorem uint64_requests (h : heap) (p : CapacityPools) (size : Z) :
  (0 <= size < 2 ^ 63 ->
   forall pick, New64 h p size pick = New h p size pick /\
                Make64 h p size pick = Make h p size pick) /\
  (configured p -> 2 ^ 63 <= size < 2 ^ 64 ->
   (exists st, New64 h p size None = Panic RuntimePanic st /\ snd st = p) /\
   (forall k ptr,
      nth_error (pool (class_at p 0)) k = Some ptr ->
      exists p',
        New64 h p size (Some k) = Ret (mkSlice ptr (size - 2 ^ 64) (minSize p), h, p') /\
        size - 2 ^ 64 < 0 /\
        Make64 h p size (Some k) = Ret (mkSlice ptr 0 (minSize p), h, p'))).
Proof.
  split.
  - intros Hs pick. unfold New64, Make64, Make, int_of_uint64.
    rewrite wrap_id by (unfold in_int, min_int, max_int; lia). split; reflexivity.
  - intros Hc Hs. destruct (configured_shape p Hc) as [Hb _].
    assert (Hw : wrap size = size - 2 ^ 64).
    { unfold wrap. replace (size + 2 ^ 63) with (size - 2 ^ 63 + 1 * 2 ^ 64) by lia.
      rewrite Z.mod_add by lia. rewrite Z.mod_small by lia. lia. }
    destruct (New_negative_size h p (size - 2 ^ 64) Hc ltac:(lia)) as [[m1 Hmiss] Hhit].
    unfold New64, Make64, int_of_uint64. rewrite Hw. split.
    + eexists. split; [exact Hmiss|reflexivity].
    + intros k ptr Hnth. destruct (Hhit k ptr Hnth) as [p' HN].
      exists p'. split; [exact HN|]. split; [lia|].
      rewrite HN. cbn [bind]. unfold reslice. cbn [Cap Data].
      destruct (Z.ltb_spec 0 0); [lia|].
      destruct (Z.ltb_spec (minSize p) 0); [lia|]. reflexivity.
Qed.

Lemma uint64_requests_witness :
  New64 empty_heap pool_2_8 5 None = New empty_heap pool_2_8 5 None /\
  exists st, New64 empty_heap pool_2_8 (2 ^ 64 - 1) None = Panic RuntimePanic st /\
             snd st = pool_2_8.
Proof.
  split.
  - destruct (uint64_requests empty_heap pool_2_8 5) as [H _].
    assert (Hs : 0 <= 5 < 2 ^ 63) by (vm_compute; split; [discriminate|reflexivity]).
    exact (proj1 (H Hs None)).
  - destruct (uint64_requests empty_heap pool_2_8 (2 ^ 64 - 1)) as [_ H].
    destruct (H pool_2_8_configured) as [Hm _]; [|exact Hm].
    vm_compute. split; [discriminate|reflexivity].
Defined.

(** X9: when [maxSize] is not above the clamped [minSize] (in particular
    when both bounds are below 2), the constructor returns at once with a
    single class, of the clamped [minSize], as both bounds. *)
Theorem NewCapacityPools_single_class (fuel : nat) (minSize maxSize : Z) :
  (1 <= fuel)%nat -> maxSize <= clamped_min minSize ->
  NewCapacityPools fuel minSize maxSize =
  Some (mkCapacityPools (clamped_min minSize) (clamped_min minSize) 0
          [newBytesPool (clamped_min minSize)]).
Proof.
  intros Hf Hle. rewrite NewCapacityPools_unfold.
  replace (clamped_max minSize maxSize) with (clamped_min minSize)
    by (unfold clamped_max; lia).
  destruct fuel as [|fuel]; [lia|]. cbn [NewCapacityPools_loop].
  rewrite Z.ltb_irrefl. reflexivity.
Qed.

Lemma NewCapacityPools_single_class_witness :
  NewCapacityPools 1 (-5) 0 = Some (mkCapacityPools 2 2 0 [newBytesPool 2]).
Proof.
  apply (NewCapacityPools_single_class 1 (-5) 0); [lia|vm_compute; discriminate].
Defined.

(** X10: a pool configured with [maxSize <= 2^62] has
    [ceil(log2(maxSize / minSize)) + 1] classes, at most 62. *)
Theorem class_count (p : CapacityPools) :
  configured_upto (2 ^ 62) p ->
  maxIndex p = ceil_log2_ratio (maxSize p) (minSize p) /\
  Z.of_nat (length (pools p)) = ceil_log2_ratio (maxSize p) (minSize p) + 1 /\
  (length (pools p) <= 62)%nat.
Proof.
  intros Hu. pose proof Hu as [Hc Hbound].
  destruct (configured_shape p Hc) as [Hb [Hidx _]].
  destruct (configured_upto_classes p Hu) as [k [Hk [_ Hik]]].
  pose proof (class_count_spec (minSize p) (maxSize p) ltac:(lia)) as Hspec.
  pose proof (ceil_log2_ratio_nonneg (maxSize p) (minSize p)) as Hnn.
  set (k' := Z.to_nat (ceil_log2_ratio (maxSize p) (minSize p))) in *.
  assert (Hkk : k = k').
  { destruct (Nat.lt_trichotomy k k') as [Hlt|[Heq|Hgt]]; [|exact Heq|].
    - apply Hspec in Hlt. apply Hk in Hlt. lia.
    - apply Hk in Hgt. apply Hspec in Hgt. lia. }
  assert (Hk61 : (k <= 61)%nat).
  { destruct (Nat.le_gt_cases k 61) as [|Hgt]; [assumption|].
    apply Hk in Hgt. change (Z.of_nat 61) with 61 in Hgt. lia. }
  subst k'. lia.
Qed.

Lemma class_count_witness : maxIndex pool_2_8 = ceil_log2_ratio 8 2.
Proof. exact (proj1 (class_count pool_2_8 pool_2_8_configured_upto)). Defined.

(** ** The buffer *)

Import buffer_api.

(** X11: for a buffer of non-negative length, [Reset] is [Truncate 0]; it
    keeps the backing array, the capacity and the reference count, leaves
    no bytes, and doing it again changes nothing. *)
Theorem Reset_is_Truncate_zero (bb : Buffer) :
  0 <= Buffer_Len bb ->
  Reset bb = Truncate bb 0 /\
  (0 <= Buffer_Cap bb ->
   exists bb',
     Reset bb = Ret bb' /\
     Buffer_Len bb' = 0 /\ Buffer_Cap bb' = Buffer_Cap bb /\
     Data (B bb') = Data (B bb) /\ c bb' = c bb /\
     (forall m, bytes_of m (B bb') = []) /\
     Reset bb' = Ret bb').
Proof.
  intros Hl. unfold Reset, Truncate, Buffer_Len, Buffer_Cap in *. split.
  - destruct (Z.ltb_spec 0 0); [lia|].
    destruct (Z.ltb_spec (Len (B bb)) 0); [lia|]. reflexivity.
  - intros Hc. unfold reslice.
    destruct (Z.ltb_spec 0 0); [lia|].
    destruct (Z.ltb_spec (Cap (B bb)) 0); [lia|]. cbn [orb bind].
    eexists. split; [reflexivity|]. cbn [B c Len Cap Data].
    repeat split.
    destruct (Z.ltb_spec (Cap (B bb)) 0); [lia|]. reflexivity.
Qed.

Lemma Reset_is_Truncate_zero_witness :
  Reset small_buffer = Truncate small_buffer 0 /\
  Reset small_buffer = Ret (mkBuffer (mkSlice 0 0 4) 0).
Proof.
  destruct (Reset_is_Truncate_zero small_buffer) as [H1 H2].
  - vm_compute. discriminate.
  - split; [exact H1|]. destruct H2 as [bb' [HR _]]; [vm_compute; discriminate|].
    vm_compute in HR. injection HR as <-. reflexivity.
Defined.

Lemma Truncate_ok bb n :
  slice_wf (B bb) -> 0 <= n <= Buffer_Len bb ->
  Truncate bb n = Ret (mkBuffer (mkSlice (Data (B bb)) n (Cap (B bb))) (c bb)).
Proof.
  intros [_ Hcap] Hn. unfold Truncate, reslice, Buffer_Len in *.
  destruct (Z.ltb_spec n 0); [lia|].
  destruct (Z.ltb_spec (Len (B bb)) n); [lia|].
  destruct (Z.ltb_spec (Cap (B bb)) n); [lia|]. reflexivity.
Qed.

(** X12: on a well-formed buffer, [Truncate n] with [0 <= n <= len] keeps
    the first [n] bytes and the capacity; truncating to the current length
    changes nothing; truncating to [n] and then to [m <= n] is truncating
    to [m]; and after truncating to [n] no larger length can be asked
    for. *)
Theorem Truncate_keeps_prefix (bb : Buffer) (n : Z) :
  slice_wf (B bb) -> 0 <= n <= Buffer_Len bb ->
  Truncate bb (Buffer_Len bb) = Ret bb /\
  exists bb',
    Truncate bb n = Ret bb' /\
    Buffer_Len bb' = n /\ Buffer_Cap bb' = Buffer_Cap bb /\ c bb' = c bb /\
    (forall m, bytes_of m (B bb') = firstn (Z.to_nat n) (bytes_of m (B bb))) /\
    (forall k, 0 <= k <= n -> Truncate bb' k = Truncate bb k) /\
    (forall k, n < k -> Truncate bb' k = Panic (PanicError ErrTruncation) bb').
Proof.
  intros Hw Hn. split.
  - rewrite (Truncate_ok bb _ Hw) by (unfold Buffer_Len in *; destruct Hw; lia).
    destruct bb as [[d l cp] cnt]. reflexivity.
  - rewrite (Truncate_ok bb n Hw Hn). eexists. split; [reflexivity|].
    cbn [B c]. unfold Buffer_Len, Buffer_Cap in *. cbn [B Len Cap].
    split; [reflexivity|]. split; [reflexivity|]. split; [reflexivity|].
    split; [|split].
    + intros m. now rewrite bytes_of_firstn by lia.
    + intros k Hk. destruct Hw as [Hl Hc].
      rewrite (Truncate_ok bb k) by (unfold slice_wf, Buffer_Len; lia).
      rewrite Truncate_ok by (unfold slice_wf, Buffer_Len; cbn [B Len Cap]; lia).
      reflexivity.
    + intros k Hk. unfold Truncate, Buffer_Len. cbn [B Len].
      destruct (Z.ltb_spec k 0); [reflexivity|].
      destruct (Z.ltb_spec n k); [reflexivity|lia].
Qed.

Lemma Truncate_keeps_prefix_witness :
  Truncate small_buffer 2 = Ret small_buffer /\
  exists bb', Truncate small_buffer 1 = Ret bb' /\ Buffer_Len bb' = 1 /\
              Truncate bb' 2 = Panic (PanicError ErrTruncation) bb'.
Proof.
  destruct (Truncate_keeps_prefix small_buffer 1) as [H1 [bb' [HT [HL [_ [_ [_ [_ Hp]]]]]]]].
  - exact (proj1 small_buffer_wf).
  - vm_compute. split; discriminate.
  - split; [exact H1|]. exists bb'. split; [exact HT|]. split; [exact HL|].
    apply Hp. reflexivity.
Defined.

Section GrowthComposition.

Variable growslice_cap : Z -> Z -> Z.

Lemma Guarantee_roomy (w : world) (pick : option nat) (bb : Buffer) (n : Z) :
  0 <= n -> 0 <= Buffer_Len bb -> Buffer_Len bb + n <= Buffer_Cap bb ->
  Guarantee growslice_cap w pick bb n = Ret (bb, w).
Proof.
  intros Hn Hlen Hroom. unfold Guarantee.
  destruct (Z.ltb_spec n 0); [lia|].
  pose proof (wrap_le (Buffer_Len bb + n)).
  destruct (Z.leb_spec (wrap (Buffer_Len bb + n)) (Buffer_Cap bb)); [reflexivity|lia].
Qed.

(** X13: within the ceiling, [Grow n] followed by [Truncate] to the old
    length gives back a buffer of the old length holding the old bytes,
    with capacity for the [n] bytes still there. *)
Theorem Grow_then_Truncate_restores (w : world) (pick : option nat) (bb : Buffer) (n : Z) :
  configured_upto (2 ^ 62) (bs w) ->
  slice_wf (B bb) -> in_heap (hp w) (B bb) ->
  0 <= n -> Buffer_Len bb + n <= MaxInt32 ->
  exists bb1 w1 bb2,
    Grow growslice_cap w pick bb n = Ret (bb1, w1) /\
    Truncate bb1 (Buffer_Len bb) = Ret bb2 /\
    Buffer_Len bb2 = Buffer_Len bb /\
    Buffer_Len bb + n <= Buffer_Cap bb2 /\
    bytes_of (mem (hp w1)) (B bb2) = bytes_of (mem (hp w)) (B bb) /\
    c bb2 = c bb.
Proof.
  intros Hu Hw Hh Hn Hsum.
  destruct (Guarantee_spec growslice_cap w pick bb n Hu Hw Hh Hn Hsum)
    as [bb0 [w0 [HG [Hcap0 [Hlen0 _]]]]].
  destruct (Grow_spec growslice_cap w pick bb n Hu Hw Hh Hn Hsum)
    as [bb1 [w1 [HGr [Hlen [Hbytes Hc]]]]].
  assert (Hcap1 : Buffer_Cap bb1 = Buffer_Cap bb0 /\ Buffer_Len bb + n <= Buffer_Cap bb1).
  { unfold Grow in HGr. rewrite HG in HGr. cbn [bind] in HGr.
    unfold reslice in HGr.
    destruct ((wrap (Len (B bb0) + n) <? 0) || (Cap (B bb0) <? wrap (Len (B bb0) + n)));
      cbn [bind] in HGr; [discriminate|].
    injection HGr as <- _. unfold Buffer_Cap in *. cbn [B Cap]. lia. }
  destruct Hcap1 as [_ Hcap1]. destruct Hw as [Hl0 Hlc].
  assert (Hw1 : slice_wf (B bb1))
    by (unfold slice_wf, Buffer_Len, Buffer_Cap in *; lia).
  exists bb1, w1. eexists. split; [exact HGr|].
  rewrite (Truncate_ok bb1 _ Hw1) by (unfold Buffer_Len in *; lia).
  split; [reflexivity|]. unfold Buffer_Len, Buffer_Cap in *. cbn [B c Len Cap].
  split; [reflexivity|]. split; [exact Hcap1|]. split; [|exact Hc].
  rewrite <- Hbytes. now rewrite bytes_of_firstn by lia.
Qed.

(** X14: within the ceiling, once [Guarantee n] has returned, a further
    [Guarantee m] with [0 <= m <= n] returns at once: the same buffer, the
    same memory and the same pool. *)
Theorem Guarantee_then_smaller_is_noop (w : world) (pick pick' : option nat)
    (bb : Buffer) (n m : Z) :
  configured_upto (2 ^ 62) (bs w) ->
  slice_wf (B bb) -> in_heap (hp w) (B bb) ->
  0 <= m <= n -> Buffer_Len bb + n <= MaxInt32 ->
  exists bb1 w1,
    Guarantee growslice_cap w pick bb n = Ret (bb1, w1) /\
    Guarantee growslice_cap w1 pick' bb1 m = Ret (bb1, w1).
Proof.
  intros Hu Hw Hh Hm Hsum.
  destruct (Guarantee_spec growslice_cap w pick bb n Hu Hw Hh ltac:(lia) Hsum)
    as [bb1 [w1 [HG [Hcap [Hlen _]]]]].
  exists bb1, w1. split; [exact HG|].
  destruct Hw as [Hl0 _]. apply Guarantee_roomy; unfold Buffer_Len in *; lia.
Qed.

End GrowthComposition.

Lemma Grow_then_Truncate_restores_witness :
  exists bb1 w1 bb2,
    Grow growslice_exact small_world None small_buffer 5 = Ret (bb1, w1) /\
    Truncate bb1 2 = Ret bb2 /\ Buffer_Len bb2 = 2 /\
    bytes_of (mem (hp w1)) (B bb2) = [Byte.x00; Byte.x00].
Proof.
  destruct small_buffer_wf as [Hw Hh].
  destruct (Grow_then_Truncate_restores growslice_exact small_world None small_buffer 5)
    as [bb1 [w1 [bb2 [HG [HT [HL [_ [Hb _]]]]]]]].
  - exact (proj1 small_world_wf).
  - exact Hw.
  - exact Hh.
  - lia.
  - vm_compute. discriminate.
  - exists bb1, w1, bb2. split; [exact HG|]. split; [exact HT|]. split; [exact HL|exact Hb].
Defined.

Lemma Guarantee_then_smaller_is_noop_witness :
  exists bb1 w1,
    Guarantee growslice_exact small_world None small_buffer 5 = Ret (bb1, w1) /\
    Guarantee growslice_exact w1 None bb1 3 = Ret (bb1, w1).
Proof.
  destruct small_buffer_wf as [Hw Hh].
  apply (Guarantee_then_smaller_is_noop growslice_exact small_world None None
           small_buffer 5 3).
  - exact (proj1 small_world_wf).
  - exact Hw.
  - exact Hh.
  - lia.
  - vm_compute. discriminate.
Defined.

(** X15: [Copy] of a non-empty buffer whose array is allocated, when the
    runtime grants at least the needed capacity, returns a slice over
    fresh memory holding the buffer's bytes; the memory allocated before,
    and so the buffer, is unchanged, and the two do not overlap.  [Copy] of
    an empty buffer returns the empty literal and allocates nothing. *)
Theorem Copy_is_independent (growslice_cap : Z -> Z -> Z) (h : heap) (bb : Buffer) :
  slice_wf (B bb) -> in_heap h (B bb) ->
  (Buffer_Len bb = 0 ->
   exists m', Copy growslice_cap h bb = Ret (empty_literal, mkHeap m' (brk h)) /\
              forall a, m' a = mem h a) /\
  (0 < Buffer_Len bb -> Buffer_Len bb <= growslice_cap 0 (Buffer_Len bb) ->
   exists s m',
     Copy growslice_cap h bb = Ret (s, mkHeap m' (brk h + Cap s)) /\
     Data s = brk h /\ Len s = Buffer_Len bb /\
     Cap s = growslice_cap 0 (Buffer_Len bb) /\
     bytes_of m' s = bytes_of (mem h) (B bb) /\
     (forall a, a < brk h -> m' a = mem h a) /\
     disjoint s (B bb)).
Proof.
  intros [Hl0 Hlc] [Hd0 Hd1]. unfold Copy, append, empty_literal, Buffer_Len.
  cbn [Len Cap Data]. split.
  - intros H0. rewrite H0. cbn [Z.add Z.leb Z.compare]. eexists. split; [reflexivity|].
    intros a. apply memmove_outside. lia.
  - intros Hpos Hgrow. rewrite Z.add_0_l.
    destruct (Z.leb_spec (Len (B bb)) 0); [lia|].
    destruct (make_spec h (Len (B bb)) (growslice_cap 0 (Len (B bb))))
      as [m1 [E1 [Hlow1 _]]]; [lia|].
    rewrite E1. cbn [bind Data brk mem].
    exists (mkSlice (brk h) (Len (B bb)) (growslice_cap 0 (Len (B bb)))).
    eexists. split; [reflexivity|]. cbn [Data Len Cap].
    split; [reflexivity|]. split; [reflexivity|]. split; [reflexivity|].
    split; [|split].
    + apply bytes_of_ext; [reflexivity|]. cbn [Data Len]. intros i Hi.
      rewrite Z.add_0_r, memmove_inside by lia.
      rewrite memmove_outside by lia. apply Hlow1. lia.
    + intros a Ha. rewrite !memmove_outside by lia. now apply Hlow1.
    + unfold disjoint. cbn [Data Len]. right. lia.
Qed.

Lemma Copy_is_independent_witness :
  exists s m',
    Copy growslice_exact (hp small_world) small_buffer = Ret (s, mkHeap m' 6) /\
    Data s = 4 /\ bytes_of m' s = [Byte.x00; Byte.x00].
Proof.
  destruct small_buffer_wf as [Hw Hh].
  destruct (Copy_is_independent growslice_exact (hp small_world) small_buffer Hw Hh)
    as [_ H].
  destruct H as [s [m' [HC [HD [_ [Hcap [Hb _]]]]]]].
  - vm_compute. reflexivity.
  - vm_compute. discriminate.
  - exists s, m'. rewrite Hcap in HC. split; [exact HC|]. split; [exact HD|exact Hb].
Defined.

(** X16: [Read] does not consume: the buffer has no read position, and
    reading again into the same destination, when it does not overlap the
    buffer's bytes, returns the same count and leaves every byte of memory
    as the first [Read] left it. *)
Theorem Read_does_not_consume (m : memory) (bb : Buffer) (dst : slice) :
  0 <= Len dst -> 0 <= Buffer_Len bb -> disjoint dst (B bb) ->
  exists n m1 m2,
    Read m bb dst = (n, None, m1) /\
    Read m1 bb dst = (n, None, m2) /\
    forall a, m2 a = m1 a.
Proof.
  intros Hd Hb Hdis. unfold Read, copy, Buffer_Len, disjoint in *.
  eexists _, _, _. split; [reflexivity|]. split; [reflexivity|].
  intros a. set (n := Z.min (Len dst) (Len (B bb))).
  destruct (Z_lt_le_dec a (Data dst)) as [|Hge];
    [now rewrite !memmove_outside by lia|].
  destruct (Z_lt_le_dec a (Data dst + n)) as [Hlt|];
    [|now rewrite !memmove_outside by lia].
  replace a with (Data dst + (a - Data dst)) by lia.
  rewrite !memmove_inside by lia.
  apply memmove_outside. lia.
Qed.

Lemma Read_does_not_consume_witness :
  exists n m1 m2,
    Read (mem (hp small_world)) small_buffer (mkSlice 10 3 3) = (n, None, m1) /\
    Read m1 small_buffer (mkSlice 10 3 3) = (n, None, m2) /\ m2 10 = m1 10.
Proof.
  destruct (Read_does_not_consume (mem (hp small_world)) small_buffer (mkSlice 10 3 3))
    as [n [m1 [m2 [H1 [H2 H3]]]]].
  - vm_compute. discriminate.
  - vm_compute. discriminate.
  - right. vm_compute. discriminate.
  - exists n, m1, m2. split; [exact H1|]. split; [exact H2|apply H3].
Defined.

(** X17: the reference count under [RefAdd], [RefStore] and [RefReset]:
    two additions are the addition of the sum; adding and then
    subtracting the same amount restores a count; [RefSwapDec] leaves the
    buffer [RefDec] leaves; [RefStore] and [RefReset] set the count whatever
    it was, and none of these touches the bytes. *)
Theorem ref_count_algebra :
  (forall bb a b, RefAdd (RefAdd bb a) b = RefAdd bb (a + b)) /\
  (forall bb d, in_int (c bb) -> RefAdd (RefAdd bb d) (- d) = bb) /\
  (forall bb, snd (RefSwapDec bb) = RefDec bb /\ fst (RefSwapDec bb) = RefValue bb) /\
  (forall bb v, RefValue (RefStore bb v) = v /\ B (RefStore bb v) = B bb /\
                RefStore (RefAdd bb v) 0 = RefReset bb) /\
  (forall bb v, in_int (v - 1) ->
     fst (RefSwapDec (RefStore bb v)) = v /\
     RefValue (snd (RefSwapDec (RefStore bb v))) = v - 1).
Proof.
  split; [|split; [|split; [|split]]].
  - intros bb a b. unfold RefAdd. cbn [B c]. f_equal.
    rewrite wrap_wrap_add. f_equal. ring.
  - intros bb d Hc. unfold RefAdd. cbn [B c]. rewrite wrap_wrap_add.
    replace (c bb + d + - d) with (c bb) by ring. rewrite wrap_id by exact Hc.
    destruct bb; reflexivity.
  - intros bb. split; reflexivity.
  - intros bb v. repeat split.
  - intros bb v Hv. unfold RefSwapDec, RefStore, RefValue. cbn [fst snd c].
    split; [reflexivity|]. now apply wrap_id.
Qed.

Lemma ref_count_algebra_witness :
  RefAdd (RefAdd small_buffer max_int) (- max_int) = small_buffer /\
  RefValue (snd (RefSwapDec (RefStore small_buffer 1))) = 0.
Proof.
  destruct ref_count_algebra as [_ [H2 [_ [_ H5]]]]. split.
  - apply H2. vm_compute. split; discriminate.
  - apply (H5 small_buffer 1). vm_compute. split; discriminate.
Defined.

Lemma world_2_8_wf : world_wf world_2_8.
Proof.
  split; [exact pool_2_8_configured_upto|]. split; [vm_compute; discriminate|].
  intros i ptr _ Hin. exfalso. unfold class_at in Hin.
  cbn [bs world_2_8 pool_2_8 pools] in Hin.
  destruct (Z.to_nat i) as [|[|[|[|n]]]]; exact Hin.
Qed.

Lemma fill_reader_contract : @io_contract unit fill_reader.
Proof.
  intros r m sub nn err m' r' E Hlen.
  unfold io_Read, fill_reader in E. injection E as <- <- <- <-.
  split; [lia|]. intros a Ha.
  destruct (Z.leb_spec (Data sub) a); [|reflexivity].
  destruct (Z.ltb_spec a (Data sub + Len sub)); [lia|reflexivity].
Qed.

Lemma fill_reader_quiet : @quiet_on_empty unit fill_reader.
Proof.
  intros r m sub nn err m' r' E _.
  unfold io_Read, fill_reader in E. now injection E as _ <- _ _.
Qed.

Section ZeroCapacity.

Context {R : Type} {reader : io_Reader R}.
Hypothesis source_ok : io_contract.
Hypothesis source_quiet : quiet_on_empty.

Variable bb : Buffer.
Variable old : list byte.
Hypothesis bLen_nonneg : 0 <= Buffer_Len bb.

Lemma ReadFrom_loop_stuck fuel :
  forall acc (v : loop_vars R),
    ReadFrom_inv (Buffer_Len bb) old acc v -> lv_bCap v = 0 ->
    ReadFrom_loop fuel bb (Buffer_Len bb) v = None.
Proof.
  induction fuel as [|fuel IH]; intros acc v Hinv Hcap; [reflexivity|].
  cbn [ReadFrom_loop]. unfold ReadFrom_iter.
  pose proof Hinv as [_ [_ [HLen [_ [Hn [_ _]]]]]].
  destruct (ReadFrom_grow_spec bb old acc v Hinv)
    as [[_ [Hmax _]]|[v1 [Hg [Hinv1 [Hn1 [_ [Hsame Hgrow]]]]]]].
  { unfold MaxInt32 in Hmax. lia. }
  rewrite Hg. cbn [bind].
  assert (Hcap1 : lv_bCap v1 = 0).
  { destruct (Z.eq_dec (lv_n v) (lv_bCap v)) as [Heq|Hne].
    - destruct (Hgrow Heq) as [Hc _]. rewrite Hc, Hcap. reflexivity.
    - rewrite (Hsame Hne). exact Hcap. }
  pose proof Hinv1 as [_ [_ [HLen1 [_ [Hnb1 _]]]]].
  destruct (ReadFrom_read_spec source_ok bb old acc v1 bLen_nonneg Hinv1)
    as [sub [nn [err [m' [r' [Hsub [Hread [_ Hres]]]]]]]].
  assert (Hempty : Len sub = 0).
  { unfold slice_from in Hsub.
    destruct ((lv_n v1 <? 0) || (Len (lv_p v1) <? lv_n v1)); [discriminate|].
    injection Hsub as <-. cbn [Len]. lia. }
  pose proof (source_quiet _ _ _ _ _ _ _ Hread Hempty) as Herr. subst err.
  destruct Hres as [v2 [Hr [Hinv2 _]]]. rewrite Hr.
  apply (IH _ v2 Hinv2).
  unfold ReadFrom_read in Hr. rewrite Hsub in Hr. cbn [bind] in Hr.
  rewrite Hread in Hr. injection Hr as <-. exact Hcap1.
Qed.

End ZeroCapacity.

(** X18: on a buffer of capacity 0 (the zero value of [Buffer] is one),
    with a source that keeps the contract of [io.Reader] and reports no
    error when handed an empty slice, [ReadFrom] never returns: doubling
    leaves the capacity at 0, so every call of the source is handed an
    empty slice. *)
Theorem ReadFrom_zero_capacity_never_returns {R : Type} {reader : io_Reader R}
    (fuel : nat) (picks : list (option nat)) (w : world) (bb : Buffer) (r : R) :
  io_contract -> quiet_on_empty -> world_wf w ->
  in_heap (hp w) (B bb) -> Buffer_Len bb = 0 -> Buffer_Cap bb = 0 ->
  ReadFrom fuel picks w bb r = None.
Proof.
  intros Hsrc Hquiet Hwf Hheap Hlen Hcap.
  assert (Hw : slice_wf (B bb)) by (unfold slice_wf, Buffer_Len, Buffer_Cap in *; lia).
  rewrite ReadFrom_unfold by lia.
  apply (ReadFrom_loop_stuck Hsrc Hquiet bb (bytes_of (mem (hp w)) (B bb))
           ltac:(lia) fuel []).
  - apply ReadFrom_start_inv; try assumption. unfold MaxInt32. lia.
  - exact Hcap.
Qed.

Lemma ReadFrom_zero_capacity_never_returns_witness :
  ReadFrom (reader := fill_reader) 1000 [] world_2_8 zero_Buffer tt = None.
Proof.
  apply ReadFrom_zero_capacity_never_returns.
  - exact fill_reader_contract.
  - exact fill_reader_quiet.
  - exact world_2_8_wf.
  - vm_compute. split; discriminate.
  - reflexivity.
  - reflexivity.
Defined.

Lemma New_other_classes h p size pick buf h' p' i :
  New h p size pick = Ret (buf, h', p') ->
  0 <= i -> getPool p size <> Ret (Some i) ->
  class_at p' i = class_at p i.
Proof.
  unfold New. intros H Hi Hne.
  destruct (getPool p size) as [[j|]|] eqn:Hg; cbn [bind] in H; [| |discriminate].
  - pose proof (getPool_in_range _ _ _ Hg) as Hj.
    destruct (Pool_Get (pool (class_at p j)) pick) as [[ptr|] store'].
    + injection H as <- <- <-. apply class_at_set_class_other; [exact Hj|exact Hi|].
      intros ->. now apply Hne.
    + destruct (Pool_New h (class_at p j)) as [[b1 h1]|]; cbn [bind] in H; [|discriminate].
      destruct (make h1 size (capacity (class_at p j))) as [[b2 h2]|];
        cbn [bind] in H; [|discriminate].
      now injection H as <- <- <-.
  - destruct (make h size size) as [[b2 h2]|]; cbn [bind] in H; [|discriminate].
    now injection H as <- <- <-.
Qed.

(** X19: within the ceiling, when [Guarantee] has to move a well-formed
    buffer whose capacity is the capacity of a class of the pool
    (configured with [maxSize <= 2^62]), the old backing array is put into
    that class, on top of what the class stored. *)
Theorem Guarantee_recycles_old_block (growslice_cap : Z -> Z -> Z) (w : world)
    (pick : option nat) (bb : Buffer) (n : Z) :
  configured_upto (2 ^ 62) (bs w) ->
  slice_wf (B bb) -> in_heap (hp w) (B bb) ->
  0 <= n -> Buffer_Len bb + n <= MaxInt32 ->
  Buffer_Cap bb < Buffer_Len bb + n ->
  In (Buffer_Cap bb) (map capacity (pools (bs w))) ->
  exists bb' w',
    Guarantee growslice_cap w pick bb n = Ret (bb', w') /\
    pool (class_at (bs w') (documented_class (bs w) (Buffer_Cap bb))) =
      Data (B bb) :: pool (class_at (bs w) (documented_class (bs w) (Buffer_Cap bb))).
Proof.
  intros Hu Hw Hh Hn Hsum Hgrow Hin. pose proof Hu as [Hc _].
  destruct (configured_shape _ Hc) as [_ [Hidx [Hlen _]]].
  pose proof Hw as [Hl0 Hlc]. unfold Buffer_Len, Buffer_Cap in *.
  set (p := bs w) in *. set (i := documented_class p (Cap (B bb))).
  (* the class of the old capacity *)
  apply (In_nth _ _ 0) in Hin as [k [Hk Hnth]]. rewrite length_map in Hk.
  destruct (documented_class_of_capacity p (Z.of_nat k) Hu ltac:(lia)) as [Hsel Hb].
  rewrite class_at_capacity, Nat2Z.id, Hnth in Hsel, Hb. fold i in Hsel.
  assert (Hci : capacity (class_at p i) = Cap (B bb))
    by (rewrite Hsel, class_at_capacity, Nat2Z.id; exact Hnth).
  assert (Hi : 0 <= i <= maxIndex p) by lia.
  unfold Guarantee, Buffer_Len, Buffer_Cap.
  destruct (Z.ltb_spec n 0); [lia|].
  rewrite wrap_id by (unfold in_int, min_int, max_int, MaxInt32 in *; lia).
  destruct (Z.leb_spec (Len (B bb) + n) (Cap (B bb))); [lia|].
  destruct (Z.ltb_spec MaxInt32 (Len (B bb) + n)); [lia|].
  unfold Make. fold p.
  destruct (New_spec (hp w) p (Len (B bb) + n) pick Hu)
    as [buf [h1 [p1 [HN [HL [HC [Hsame _]]]]]]]; [lia|].
  rewrite HN. cbn [bind]. unfold reslice.
  destruct (Z.ltb_spec 0 0); [lia|].
  destruct (Z.ltb_spec (Cap buf) 0); [lia|]. cbn [orb bind].
  unfold append. cbn [Len Cap Data].
  destruct (Z.leb_spec (0 + Len (B bb)) (Cap buf)); [|lia]. cbn [bind].
  (* the new block comes from another class, or from none *)
  assert (Hother : class_at p1 i = class_at p i).
  { apply (New_other_classes _ _ _ _ _ _ _ i HN); [lia|].
    intros Hg.
    destruct (Z_le_gt_dec (Len (B bb) + n) (maxSize p)) as [Hle|Hgt].
    - destruct (documented_class_fits p _ Hu Hle) as [Hg' [_ [Hfit _]]].
      rewrite Hg in Hg'. injection Hg' as Hg'. rewrite <- Hg' in Hfit. lia.
    - rewrite (getPool_above_max p _ Hc) in Hg by lia. discriminate. }
  assert (Hu1 : configured_upto (2 ^ 62) p1)
    by (apply (configured_upto_same_classes _ p1 p); assumption).
  destruct (Release_spec p1 (B bb) (proj1 Hu1) Hw) as [ok [p2 [HR [Hiff [Ht _]]]]].
  assert (Hd : documented_class p1 (Cap (B bb)) = i)
    by apply (documented_class_same_classes p1 p _ Hsame).
  assert (Hok : ok = true).
  { apply Hiff. rewrite Hd, Hother, Hci.
    destruct Hsame as [_ [Hmax _]]. rewrite Hmax. lia. }
  subst ok. destruct (Ht eq_refl) as [_ [Hpool _]]. cbv zeta in Hpool.
  rewrite Hd, Hother in Hpool.
  rewrite HR. cbn [bind]. eexists _, _. split; [reflexivity|]. cbn [bs]. exact Hpool.
Qed.

Lemma Guarantee_recycles_old_block_witness :
  exists bb' w',
    Guarantee growslice_exact small_world None small_buffer 5 = Ret (bb', w') /\
    pool (class_at (bs w') 1) = [0].
Proof.
  destruct small_buffer_wf as [Hw Hh].
  destruct (Guarantee_recycles_old_block growslice_exact small_world None small_buffer 5)
    as [bb' [w' [HG Hp]]].
  - exact (proj1 small_world_wf).
  - exact Hw.
  - exact Hh.
  - lia.
  - vm_compute. discriminate.
  - vm_compute. reflexivity.
  - simpl. right. left. reflexivity.
  - exists bb', w'. split; [exact HG|exact Hp].
Defined.

(** X20: memory safety of the stored pointers.  In a world where the pool
    was configured with [maxSize <= 2^62] and every stored pointer is the
    base of an allocated array of its class's capacity, [New] of a
    non-negative size that is at most [minSize], at least [maxSize], or at
    most [2^31 - 1], returns a well-formed block lying wholly in allocated
    memory, and that [New] and [Release] (of a well-formed allocated block)
    keep the world that way. *)
Theorem pool_blocks_stay_allocated :
  (forall h p size pick,
     world_wf (mkWorld h p) -> 0 <= size -> exact_request p size ->
     exists buf h' p',
       New h p size pick = Ret (buf, h', p') /\
       slice_wf buf /\ in_heap h' buf /\ world_wf (mkWorld h' p')) /\
  (forall h p b,
     world_wf (mkWorld h p) -> slice_wf b -> in_heap h b ->
     exists ok p', Release p b = Ret (ok, p') /\ world_wf (mkWorld h p')).
Proof.
  split.
  - intros h p size pick Hwf Hs _.
    destruct (New_wf h p size pick Hwf Hs) as [buf [h' [p' [HN [HL [HC [Hin [Hwf' _]]]]]]]].
    exists buf, h', p'. split; [exact HN|]. split; [unfold slice_wf; lia|].
    split; assumption.
  - exact Release_wf.
Qed.

Lemma pool_blocks_stay_allocated_witness :
  exists buf h' p',
    New empty_heap pool_2_8 3 None = Ret (buf, h', p') /\ in_heap h' buf.
Proof.
  destruct pool_blocks_stay_allocated as [H _].
  destruct (H empty_heap pool_2_8 3 None world_2_8_wf) as [buf [h' [p' [HN [_ [Hin _]]]]]].
  - lia.
  - right. right. vm_compute. discriminate.
  - exists buf, h', p'. split; [exact HN|exact Hin].
Defined.

Lemma Release_again p p1 b :
  Release p b = Ret (true, p1) -> exists p2, Release p1 b = Ret (true, p2).
Proof.
  intros HR. pose proof (Release_same_classes _ _ _ _ HR) as Hsame.
  destruct (Release_true_inv p b p1 HR) as [i [Hg [Hcap [Hne [Hle _]]]]].
  unfold Release.
  destruct (Z.eqb_spec (Cap b) 0); [contradiction|].
  destruct Hsame as [Hmin [Hmax Hrest]].
  destruct (Z.ltb_spec (maxSize p1) (Cap b)); [lia|]. cbn [orb].
  rewrite (getPool_same_classes p1 p) by (repeat split; tauto).
  rewrite Hg. cbn [bind].
  rewrite (same_classes_capacity p1 p i) by (repeat split; tauto).
  destruct (Z.eqb_spec (Cap b) (capacity (class_at p i))); [|contradiction].
  cbn [negb]. unfold reslice.
  pose proof (getPool_in_range _ _ _ Hg).
  destruct (Z.ltb_spec 1 0); [lia|].
  destruct (Z.ltb_spec (Cap b) 1).
  - exfalso. unfold Release in HR.
    destruct (Z.eqb_spec (Cap b) 0); [contradiction|].
    destruct (Z.ltb_spec (maxSize p) (Cap b)); [lia|]. cbn [orb] in HR.
    rewrite Hg in HR. cbn [bind] in HR.
    destruct (Z.eqb_spec (Cap b) (capacity (class_at p i))); [|contradiction].
    cbn [negb] in HR. unfold reslice in HR.
    destruct (Z.ltb_spec 1 0); [lia|].
    destruct (Z.ltb_spec (Cap b) 1); [discriminate|lia].
  - cbn [orb bind]. eexists. reflexivity.
Qed.

(** X21: a second [Release] of a block that was accepted is accepted
    again, unnoticed; the next two [New]s served from the top of that class
    then return two blocks over the same backing array. *)
Theorem double_Release_aliases (h : heap) (p p1 : CapacityPools) (b : slice) :
  Release p b = Ret (true, p1) ->
  exists p2,
    Release p1 b = Ret (true, p2) /\
    New h p2 (Cap b) (Some 0%nat) = Ret (mkSlice (Data b) (Cap b) (Cap b), h, p1) /\
    New h p1 (Cap b) (Some 0%nat) = Ret (mkSlice (Data b) (Cap b) (Cap b), h, p).
Proof.
  intros HR. destruct (Release_again p p1 b HR) as [p2 HR2].
  exists p2. split; [exact HR2|]. split.
  - now apply Release_New_roundtrip.
  - now apply Release_New_roundtrip.
Qed.

Lemma double_Release_aliases_witness :
  exists p1 p2,
    Release pool_2_8 (mkSlice 100 0 4) = Ret (true, p1) /\
    Release p1 (mkSlice 100 0 4) = Ret (true, p2) /\
    New empty_heap p2 4 (Some 0%nat) = Ret (mkSlice 100 4 4, empty_heap, p1) /\
    New empty_heap p1 4 (Some 0%nat) = Ret (mkSlice 100 4 4, empty_heap, pool_2_8).
Proof.
  eexists. 
  assert (HR : Release pool_2_8 (mkSlice 100 0 4) =
               Ret (true, set_class pool_2_8 1 (mkBytesPool 4 [100])))
    by (vm_compute; reflexivity).
  destruct (double_Release_aliases empty_heap pool_2_8 _ (mkSlice 100 0 4) HR)
    as [p2 [H2 [H3 H4]]].
  exists p2. split; [exact HR|]. split; [exact H2|]. split; [exact H3|exact H4].
Defined.

(** X22: on a pool configured with [maxSize <= 2^62], a request for
    exactly the capacity of a class is served from that class with nothing
    to spare: the block has that length and that capacity. *)
Theorem New_of_class_capacity_is_exact (h : heap) (p : CapacityPools) (cp : Z)
    (pick : option nat) :
  configured_upto (2 ^ 62) p -> In cp (map capacity (pools p)) ->
  exists buf h' p',
    New h p cp pick = Ret (buf, h', p') /\ Len buf = cp /\ Cap buf = cp.
Proof.
  intros Hu Hin. pose proof Hu as [Hc _].
  destruct (configured_shape p Hc) as [_ [Hidx [Hlen _]]].
  apply (In_nth _ _ 0) in Hin as [k [Hk Hnth]]. rewrite length_map in Hk.
  destruct (documented_class_of_capacity p (Z.of_nat k) Hu ltac:(lia)) as [Hsel Hb].
  rewrite class_at_capacity, Nat2Z.id, Hnth in Hsel, Hb.
  destruct (New_within h p cp pick Hu ltac:(lia)) as [buf [h' [p' [HN [HL [HC _]]]]]].
  exists buf, h', p'. split; [exact HN|]. split; [exact HL|].
  rewrite HC, Hsel, class_at_capacity, Nat2Z.id. exact Hnth.
Qed.

Lemma New_of_class_capacity_is_exact_witness :
  exists buf h' p',
    New empty_heap pool_2_8 4 None = Ret (buf, h', p') /\ Len buf = 4 /\ Cap buf = 4.
Proof.
  apply (New_of_class_capacity_is_exact empty_heap pool_2_8 4 None pool_2_8_configured_upto).
  simpl. right. left. reflexivity.
Defined.

(** X23: [Guarantee 0] and [Grow 0] on a well-formed buffer return the
    buffer and the world they were given. *)
Theorem Grow_zero_is_identity (growslice_cap : Z -> Z -> Z) (w : world)
    (pick : option nat) (bb : Buffer) :
  slice_wf (B bb) -> Buffer_Cap bb <= max_int ->
  Guarantee growslice_cap w pick bb 0 = Ret (bb, w) /\
  Grow growslice_cap w pick bb 0 = Ret (bb, w).
Proof.
  intros [Hl0 Hlc] Hmax.
  assert (HG : Guarantee growslice_cap w pick bb 0 = Ret (bb, w))
    by (apply Guarantee_roomy; unfold Buffer_Len, Buffer_Cap; lia).
  split; [exact HG|]. unfold Grow. rewrite HG. cbn [bind].
  rewrite Z.add_0_r.
  rewrite wrap_id by (unfold in_int, min_int, max_int, Buffer_Cap in *; lia).
  unfold reslice.
  destruct (Z.ltb_spec (Len (B bb)) 0); [lia|].
  destruct (Z.ltb_spec (Cap (B bb)) (Len (B bb))); [lia|]. cbn [orb bind].
  destruct bb as [[d l cp] cnt]. reflexivity.
Qed.

Lemma Grow_zero_is_identity_witness :
  Grow growslice_exact small_world None small_buffer 0 = Ret (small_buffer, small_world).
Proof.
  apply (Grow_zero_is_identity growslice_exact small_world None small_buffer).
  - exact (proj1 small_buffer_wf).
  - vm_compute. discriminate.
Defined.

(** X24: on a well-formed buffer with spare capacity, with a source that
    reports end-of-stream without delivering a byte, [ReadFrom] returns 0
    and a nil error at the first iteration and the buffer is the one it
    was; the pool is not touched. *)
Theorem ReadFrom_exhausted_source {R : Type} {reader : io_Reader R}
    (fuel : nat) (picks : list (option nat)) (w : world) (bb : Buffer) (r r' : R)
    (m' : memory) :
  slice_wf (B bb) -> Buffer_Len bb < Buffer_Cap bb -> Buffer_Cap bb <= max_int ->
  io_Read r (mem (hp w))
    (mkSlice (Data (B bb) + Buffer_Len bb) (Buffer_Cap bb - Buffer_Len bb)
       (Buffer_Cap bb - Buffer_Len bb)) = (0, Some EOF, m', r') ->
  ReadFrom (S fuel) picks w bb r =
  Some (Ret (0, None, mkReadState bb (mkWorld (mkHeap m' (brk (hp w))) (bs w)) r')).
Proof.
  intros [Hl0 Hlc] Hspare Hmax Hread. unfold Buffer_Len, Buffer_Cap in *.
  unfold ReadFrom, Buffer_Len, Buffer_Cap, reslice.
  destruct (Z.ltb_spec (Cap (B bb)) 0); [lia|].
  rewrite Z.ltb_irrefl. cbn [orb ReadFrom_loop].
  unfold ReadFrom_iter, ReadFrom_grow. cbn [lv_n lv_bCap].
  destruct (Z.eqb_spec (Len (B bb)) (Cap (B bb))); [lia|]. cbn [bind].
  unfold ReadFrom_read, slice_from. cbn [lv_n lv_p lv_world lv_src Len Data Cap].
  destruct (Z.ltb_spec (Len (B bb)) 0); [lia|].
  destruct (Z.ltb_spec (Cap (B bb)) (Len (B bb))); [lia|]. cbn [orb bind].
  rewrite Hread. rewrite Z.add_0_r.
  rewrite wrap_id by (unfold in_int, min_int, max_int in *; lia).
  unfold reslice. cbn [Cap].
  destruct (Z.ltb_spec (Len (B bb)) 0); [lia|].
  destruct (Z.ltb_spec (Cap (B bb)) (Len (B bb))); [lia|]. cbn [orb bind].
  rewrite Z.sub_diag. change (wrap 0) with 0.
  destruct bb as [[d l cp] cnt]. reflexivity.
Qed.

Lemma ReadFrom_exhausted_source_witness :
  exists st,
    ReadFrom (reader := ones_reader) 1 [] small_world small_buffer 0 =
      Some (Ret (0, None, st)) /\ rs_bb st = small_buffer.
Proof.
  eexists. split.
  - apply (ReadFrom_exhausted_source (reader := ones_reader) 0 [] small_world
             small_buffer 0 0 (mem (hp small_world))).
    + exact (proj1 small_buffer_wf).
    + vm_compute. reflexivity.
    + vm_compute. discriminate.
    + reflexivity.
  - reflexivity.
Defined.
